(** * lluminate: population store, selection engine and generation ledger

    A shallow embedding of [src/population.py] (class [Population]) and of the
    part of [src/artifacts.py] that [Population] reads (the [id] and [fitness]
    attributes of [Artifact]).

    Conventions of the embedding:
    - a Python [int] is a [Z]; [len] returns a [Z]; list indices are [nat];
    - a Python [float] holding a fitness is the rational it denotes ([Q]);
      NaN and the infinities are outside the model, [float("-inf")] appears
      only as the sort key of an unset fitness;
    - [torch.float32] arithmetic is idealised as exact arithmetic over [R]:
      no rounding, no overflow to infinity, no NaN.  The idealisation and
      the code part ways where float32 overflows (entries whose squares do
      not fit) and where torch produces NaN (the mean of an empty slice);
      every theorem about the scores of the ranking branch is therefore
      stated for [within_float32] embeddings and non-empty slices.  Such a
      theorem says which entries enter a score and by which expression; the
      code evaluates the same expression in float32, and its numbers are
      those of the theorem up to rounding;
    - a method that mutates [self] is a function from the store to an outcome
      and the store it leaves behind; a raised exception is the outcome
      [Raised]. *)

From Stdlib Require Import Reals Lra QArith ZArith List Lia Ascii.
From stdpp Require Import gmap strings list fin_maps sorting.

(** ** Python values and control flow *)

Inductive PyExn : Type :=
  | ValueError
  | IndexError
  | RuntimeError.

Inductive Outcome (A : Type) : Type :=
  | Returned (a : A)
  | Raised (e : PyExn).
Arguments Returned {A} a.
Arguments Raised {A} e.

#[global] Instance Outcome_ret : MRet Outcome := λ A a, Returned a.
#[global] Instance Outcome_bind : MBind Outcome := λ A B f c,
  match c with
  | Returned a => f a
  | Raised e => Raised e
  end.

(** [len(l)] *)
Definition len {A} (l : list A) : Z := Z.of_nat (length l).

(** [l[:stop]] for an arbitrary Python integer [stop]: a negative [stop]
    counts from the end, and the slice is clipped to the list. *)
Definition slice_to {A} (stop : Z) (l : list A) : list A :=
  if (0 <=? stop)%Z then take (Z.to_nat stop) l
  else take (Z.to_nat (len l + stop)) l.

(** [l[i]] for a non-negative index. *)
Definition getitem {A} (l : list A) (i : nat) : Outcome A :=
  match l !! i with
  | Some x => Returned x
  | None => Raised IndexError
  end.

(** [[f(x) for x in l]] where [f] may raise. *)
Fixpoint comprehension {A B} (f : A → Outcome B) (l : list A) : Outcome (list B) :=
  match l with
  | [] => Returned []
  | x :: l' => y ← f x; ys ← comprehension f l'; mret (y :: ys)
  end.

(** [list.remove(x)]: drops the first item equal to [x]; [None] stands for
    the [ValueError] Python raises when there is none. *)
Fixpoint list_remove_first `{EqDecision A} (x : A) (l : list A) : option (list A) :=
  match l with
  | [] => None
  | y :: l' => if decide (y = x) then Some l' else (y ::.) <$> list_remove_first x l'
  end.

(** ** [sorted(l, key=..., reverse=...)]

    CPython sorts with [<] only.  A run shorter than 64 items is sorted by
    insertion: each item, taken left to right, goes in front of the first
    item of the sorted prefix that it is smaller than, hence behind its
    equals.  With [reverse=True] the list is reversed, sorted ascending, and
    reversed again.  For a strict weak order every stable sort yields the
    same list, so the insertion sort stands for the merge phase as well. *)
Section py_sorted.
Context {A K : Type} (key : A → K) (lt : K → K → bool).

Fixpoint insort (x : A) (l : list A) : list A :=
  match l with
  | [] => [x]
  | y :: l' => if lt (key x) (key y) then x :: y :: l' else y :: insort x l'
  end.

Definition list_sort (l : list A) : list A :=
  foldl (λ acc x, insort x acc) [] l.

Definition sorted (reverse : bool) (l : list A) : list A :=
  if reverse then rev (list_sort (rev l)) else list_sort l.

End py_sorted.

(** ** [Artifact] (src/artifacts.py)

    [Artifact] defines neither [__eq__] nor [__hash__]: [==] is object
    identity.  A value of the record is one object: [oid] is its identity and
    the other fields are the attributes [Population] reads.  Equality of
    records stands for [==]. *)
Record Artifact : Type := {
  oid : nat;
  id : string;
  fitness : option Q;
}.

#[global] Instance Q_eq_dec : EqDecision Q.
Proof. solve_decision. Defined.
#[global] Instance Artifact_eq_dec : EqDecision Artifact.
Proof. solve_decision. Defined.

(** ** [Population] (src/population.py) *)
Record Population : Type := {
  artifacts : list Artifact;
  id_to_artifact : gmap string Artifact;
}.

(** A method call on a store: its outcome and the store afterwards.  The
    store survives an exception. *)
Definition Method (A : Type) : Type := Population → Outcome A * Population.

(** [Population()] *)
Definition __init__ : Population :=
  {| artifacts := []; id_to_artifact := ∅ |}.

Definition add (artifact : Artifact) : Method unit := λ self,
  (Returned tt,
   {| artifacts := artifacts self ++ [artifact];
      id_to_artifact := <[id artifact := artifact]> (id_to_artifact self) |}).

Fixpoint add_all (arts : list Artifact) : Method unit := λ self,
  match arts with
  | [] => (Returned tt, self)
  | artifact :: rest =>
      match add artifact self with
      | (Returned _, self') => add_all rest self'
      | (Raised e, self') => (Raised e, self')
      end
  end.

Definition remove (artifact : Artifact) : Method unit := λ self,
  if decide (is_Some (id_to_artifact self !! id artifact)) then
    match list_remove_first artifact (artifacts self) with
    | None => (Raised ValueError, self)
    | Some l =>
        (Returned tt,
         {| artifacts := l;
            id_to_artifact := delete (id artifact) (id_to_artifact self) |})
    end
  else (Returned tt, self).

Definition get (artifact_id : string) (self : Population) : option Artifact :=
  id_to_artifact self !! artifact_id.

Definition get_all (self : Population) : list Artifact := artifacts self.

(** *** [get_random]

    [np.random.choice(n, size=count, replace=False)] draws [count] indices
    below [n] without replacement and raises [ValueError] for a negative
    size or a size above [n].  The generator is modelled by the raw numbers
    it is going to produce: every draw picks a position in the pool of
    indices not yet taken. *)
Fixpoint draw_without_replacement (rng : list nat) (pool : list nat) (size : nat)
    : list nat :=
  match size with
  | O => []
  | S size' =>
      let r := hd O rng `mod` length pool in
      match pool !! r with
      | Some i => i :: draw_without_replacement (tl rng) (delete r pool) size'
      | None => []
      end
  end.

Definition np_random_choice (rng : list nat) (n : nat) (size : Z) : Outcome (list nat) :=
  if (size <? 0)%Z then Raised ValueError
  else if (Z.of_nat n <? size)%Z then Raised ValueError
  else Returned (draw_without_replacement rng (seq 0 n) (Z.to_nat size)).

Definition get_random (rng : list nat) (count : Z) (self : Population)
    : Outcome (list Artifact) :=
  if (count >=? len (artifacts self))%Z then Returned (get_all self)
  else
    indices ← np_random_choice rng (length (artifacts self)) count;
    comprehension (λ i, getitem (artifacts self) i) indices.

(** *** [get_best] *)

(** The sort key [a.fitness if a.fitness is not None else float("-inf")]. *)
Inductive FitnessKey : Type :=
  | NegInf
  | Finite (q : Q).

Definition fitness_key (a : Artifact) : FitnessKey :=
  match fitness a with
  | Some f => Finite f
  | None => NegInf
  end.

(** [<] on floats. *)
Definition key_lt (x y : FitnessKey) : bool :=
  match x, y with
  | _, NegInf => false
  | NegInf, Finite _ => true
  | Finite a, Finite b => match (a ?= b)%Q with Lt => true | _ => false end
  end.

Definition get_best (count : Z) (self : Population) : list Artifact :=
  let sorted_artifacts := sorted fitness_key key_lt true (artifacts self) in
  slice_to count sorted_artifacts.

(** *** [select_by_novelty]

    A 2-D tensor is its shape and its entries; entries outside the shape are
    never read.  Tensors of another rank are kept apart because the torch
    calls reject them; the entries of a tensor of rank three or more are not
    tracked, since the method fails before reading them. *)
Record Matrix : Type := {
  shape0 : nat;
  shape1 : nat;
  item : nat → nat → R;
}.

Inductive Tensor : Type :=
  | Tensor0D (x : R)
  | Tensor1D (v : list R)
  | Tensor2D (m : Matrix)
  | TensorND (extra : nat).

(** [x.dim()]; a [TensorND extra] has [3 + extra] dimensions. *)
Definition ndim (x : Tensor) : nat :=
  match x with
  | Tensor0D _ => 0
  | Tensor1D _ => 1
  | Tensor2D _ => 2
  | TensorND extra => 3 + extra
  end.

(** Sum of [f 0 .. f (n-1)]. *)
Definition rsum (n : nat) (f : nat → R) : R := foldr Rplus 0%R (f <$> seq 0 n).

(** [embeddings.to(torch.float32)].  The conversion rounds, and it turns an
    entry beyond [float32_max] into an infinity; on the reals it is the
    identity, which is what the code does, up to rounding, for the tensors
    that are [within_float32] (below). *)
Definition to_float32 (x : Tensor) : Tensor := x.

(** The [eps=1e-12] default of [torch.nn.functional.normalize]. *)
Definition normalize_eps : R := (/ 10 ^ 12)%R.

(** [torch.nn.functional.normalize(x, dim=1)]: every row is divided by
    [max(||row||_2, eps)]; [IndexError] when the tensor has no dimension 1.
    The division is exact here; in float32 the squared norm overflows for
    rows that are not [within_float32], and the quotients are rounded. *)
Definition normalize (x : Tensor) : Outcome Tensor :=
  match x with
  | Tensor0D _ | Tensor1D _ => Raised IndexError
  | Tensor2D m =>
      Returned (Tensor2D
        {| shape0 := shape0 m; shape1 := shape1 m;
           item i j :=
             (item m i j /
              Rmax (sqrt (rsum (shape1 m) (λ c, item m i c * item m i c)))
                   normalize_eps)%R |})
  | TensorND extra => Returned (TensorND extra)
  end.

(** [x.t()]: [RuntimeError] above two dimensions. *)
Definition t (x : Tensor) : Outcome Tensor :=
  match x with
  | Tensor0D _ | Tensor1D _ => Returned x
  | Tensor2D m =>
      Returned (Tensor2D
        {| shape0 := shape1 m; shape1 := shape0 m; item i j := item m j i |})
  | TensorND _ => Raised RuntimeError
  end.

(** [torch.mm(a, b)]: both operands must be matrices of matching shapes. *)
Definition mm (a b : Tensor) : Outcome Matrix :=
  match a, b with
  | Tensor2D x, Tensor2D y =>
      if decide (shape1 x = shape0 y) then
        Returned
          {| shape0 := shape0 x; shape1 := shape1 y;
             item i j := rsum (shape1 x) (λ c, item x i c * item y c j)%R |}
      else Raised RuntimeError
  | _, _ => Raised RuntimeError
  end.

(** [1 - m] *)
Definition rsub (a : R) (m : Matrix) : Matrix :=
  {| shape0 := shape0 m; shape1 := shape1 m; item i j := (a - item m i j)%R |}.

(** [torch.finfo(torch.float32).max], that is [(2 - 2^-23) * 2^127]. *)
Definition float32_max : R := IZR (2 ^ 128 - 2 ^ 104).

(** The embeddings for which float32 does not overflow: the squared norm of
    every row is at most [2^120], a factor [2^8] below [float32_max], so
    that the entries convert to finite float32 numbers and their squares
    and the rounded sum of the squares stay finite. *)
Definition within_float32 (m : Matrix) : Prop :=
  ∀ i, i < shape0 m →
       (rsum (shape1 m) (λ c, item m i c * item m i c) <= IZR (2 ^ 120))%R.

(** [m[i, j] = v] *)
Definition setitem (m : Matrix) (i j : nat) (v : R) : Outcome Matrix :=
  if decide (i < shape0 m ∧ j < shape1 m) then
    Returned
      {| shape0 := shape0 m; shape1 := shape1 m;
         item a b := if decide (a = i ∧ b = j) then v else item m a b |}
  else Raised IndexError.

(** [for i in range(...): distances[i, i] = max_val] *)
Fixpoint fill_diagonal (range : list nat) (distances : Matrix) (max_val : R)
    : Outcome Matrix :=
  match range with
  | [] => Returned distances
  | i :: rest =>
      distances' ← setitem distances i i max_val;
      fill_diagonal rest distances' max_val
  end.

Definition Rltb (x y : R) : bool := if Rlt_dec x y then true else false.

(** The rows of a matrix, as [m.tolist()] gives them. *)
Definition tolist (m : Matrix) : list (list R) :=
  (λ i, item m i <$> seq 0 (shape1 m)) <$> seq 0 (shape0 m).

(** The values of [torch.sort(m, dim=1)]: every row in ascending order. *)
Definition sort_dim1 (m : Matrix) : list (list R) :=
  list_sort (λ x : R, x) Rltb <$> tolist m.

(** [rows.mean(dim=1)] for one row.  On an empty row torch yields NaN, which
    the reals do not have: the quotient [0 * / 0] written here says nothing
    about the code, and no theorem is stated for an empty row. *)
Definition mean (row : list R) : R := (foldr Rplus 0 row / INR (length row))%R.

(** [torch.argsort(scores, descending=True).tolist()].  torch leaves the order
    of equal scores open; the model keeps them in index order, and no
    theorem below depends on that choice. *)
Definition argsort_descending (scores : list R) : list nat :=
  sorted (λ i, nth i scores 0%R) Rltb true (seq 0 (length scores)).

Inductive NoveltyResult : Type :=
  | Indices (sorted_indices : list nat)
  | IndicesAndScores (sorted_indices : list nat) (novelty_scores : list R).

Definition select_by_novelty (self : Population) (embeddings : Tensor)
    (k_neighbors : Z) (return_distances : bool) : Outcome NoveltyResult :=
  let embeddings := to_float32 embeddings in
  if (len (artifacts self) <=? k_neighbors)%Z then
    let indices := seq 0 (length (artifacts self)) in
    if return_distances then
      Returned (IndicesAndScores indices (replicate (length (artifacts self)) 0%R))
    else Returned (Indices indices)
  else
    norm_emb ← normalize embeddings;
    norm_emb_t ← t norm_emb;
    similarity ← mm norm_emb norm_emb_t;
    let distances := rsub 1 similarity in
    let max_val := (float32_max / 2)%R in
    distances ← fill_diagonal (seq 0 (shape0 distances)) distances max_val;
    let sorted_dist := sort_dim1 distances in
    let k_nearest := slice_to k_neighbors <$> sorted_dist in
    let novelty_scores := mean <$> k_nearest in
    let sorted_indices := argsort_descending novelty_scores in
    if return_distances then Returned (IndicesAndScores sorted_indices novelty_scores)
    else Returned (Indices sorted_indices).

(** *** [save]: the generation ledger

    [population_data.jsonl] holds one JSON document per line; [json.dumps]
    never emits a line break, so a file made of whole lines is the list of
    the documents written to it.  That covers a missing file, an empty one
    and everything [save] leaves behind; a file that ends in the middle of
    a line has no representation here.  The file system maps a path, as it
    is spelled, to the content of the file there; two spellings of one path
    are two keys, and no theorem relies on their naming different files.
    Only files are recorded: the directories [os.makedirs] creates are not
    part of the state. *)
#[warnings="-register-all"]
Inductive Json : Type :=
  | JInt (n : Z)
  | JStr (s : string)
  | JList (l : list Json)
  | JDict (items : list (string * Json)).

Abbreviation FileSystem := (gmap string (list Json)).

(** [d[k]] on a JSON object. *)
Fixpoint dict_get (k : string) (items : list (string * Json)) : option Json :=
  match items with
  | [] => None
  | (k', v) :: rest => if decide (k' = k) then Some v else dict_get k rest
  end.

Definition json_get (k : string) (j : Json) : option Json :=
  match j with
  | JDict items => dict_get k items
  | _ => None
  end.

Fixpoint ends_with_slash (s : string) : bool :=
  match s with
  | EmptyString => false
  | String c EmptyString => if decide (c = "/"%char) then true else false
  | String _ rest => ends_with_slash rest
  end.

(** [os.path.join(a, b)] for a relative [b]. *)
Definition os_path_join (a b : string) : string :=
  if decide (a = EmptyString) then b
  else if ends_with_slash a then a +:+ b
  else a +:+ "/" +:+ b.

(** The content of the file at [path]; a missing file has no line. *)
Definition read_lines (fs : FileSystem) (path : string) : list Json :=
  default [] (fs !! path).

(** [with open(path, "a") as f: f.write(line + "\n")] *)
Definition append_line (path : string) (line : Json) (fs : FileSystem) : FileSystem :=
  <[path := read_lines fs path ++ [line]]> fs.

(** What [os.makedirs] and [open] raise when they fail. *)
Inductive IoError : Type :=
  | FileNotFoundError
  | OtherIoError.

Inductive IoOutcome (A : Type) : Type :=
  | IoReturned (a : A)
  | IoRaised (e : IoError).
Arguments IoReturned {A} a.
Arguments IoRaised {A} e.

(** [now] is [datetime.now().isoformat()] as read at the call.  [refusal] is
    the answer of the operating system to [os.makedirs(output_dir,
    exist_ok=True)] and [open(population_path, "a")]: the exception one of
    them raises (a missing permission, a file in the way, a NUL in the
    path), or [None] when both succeed.  [os.makedirs("")] raises
    [FileNotFoundError] on every system.  Both calls come before the write,
    so that a call that raises leaves every file as it was; an error while
    writing is outside the model. *)
Definition save (self : Population) (output_dir : string) (generation : Z)
    (now : string) (refusal : option IoError) (fs : FileSystem)
    : IoOutcome string * FileSystem :=
  if decide (output_dir = EmptyString) then (IoRaised FileNotFoundError, fs)
  else
    match refusal with
    | Some e => (IoRaised e, fs)
    | None =>
        let population_data :=
          JDict [("generation", JInt generation);
                 ("timestamp", JStr now);
                 ("genome_ids", JList ((λ g, JStr (id g)) <$> artifacts self));
                 ("count", JInt (len (artifacts self)))] in
        let population_path := os_path_join output_dir "population_data.jsonl" in
        (IoReturned population_path,
         append_line population_path population_data fs)
    end.

(** ** Client calls on a store

    A client mutates a store through [add], [add_all] and [remove].  When a
    call raises, the client keeps the store as the call left it. *)
Inductive Call : Type :=
  | CallAdd (artifact : Artifact)
  | CallAddAll (arts : list Artifact)
  | CallRemove (artifact : Artifact).

Definition call (c : Call) : Method unit :=
  match c with
  | CallAdd a => add a
  | CallAddAll l => add_all l
  | CallRemove a => remove a
  end.

Fixpoint run (calls : list Call) (self : Population) : Population :=
  match calls with
  | [] => self
  | c :: rest => run rest (call c self).2
  end.

(** The ordered collection and the id index agree: ids are unique in the
    collection, and the index holds exactly the record of every id. *)
Definition consistent (p : Population) : Prop :=
  NoDup (id <$> artifacts p) ∧
  ∀ i a, id_to_artifact p !! i = Some a ↔ a ∈ artifacts p ∧ id a = i.

(** The caller's side of the bargain: no call inserts an id that the store
    holds at that moment, nor the same id twice in one batch. *)
Definition inserts_fresh_ids (c : Call) (p : Population) : Prop :=
  match c with
  | CallAdd a => id_to_artifact p !! id a = None
  | CallAddAll l =>
      NoDup (id <$> l) ∧ ∀ a, a ∈ l → id_to_artifact p !! id a = None
  | CallRemove _ => True
  end.

Fixpoint well_called (calls : list Call) (p : Population) : Prop :=
  match calls with
  | [] => True
  | c :: rest => inserts_fresh_ids c p ∧ well_called rest (call c p).2
  end.

(** ** Sample data *)
Definition artifact_of (n : nat) (i : string) (f : option Q) : Artifact :=
  {| oid := n; id := i; fitness := f |}.

(** Five artifacts with fitness 0.2, None, 0.9, 0.5, 0.1, in insertion order. *)
Definition scenario_artifacts : list Artifact :=
  [artifact_of 0 "a0" (Some 0.2%Q); artifact_of 1 "a1" None;
   artifact_of 2 "a2" (Some 0.9%Q); artifact_of 3 "a3" (Some 0.5%Q);
   artifact_of 4 "a4" (Some 0.1%Q)].

Definition scenario_population : Population :=
  (add_all scenario_artifacts __init__).2.

(** Two distinct objects carrying the same id. *)
Definition twin_a : Artifact := artifact_of 10 "x" None.
Definition twin_b : Artifact := artifact_of 11 "x" None.

(** ** Orders on sort keys *)

(** [x <= y] on fitness keys: [float("-inf")] is below every fitness. *)
Definition key_le (x y : FitnessKey) : Prop :=
  match x, y with
  | NegInf, _ => True
  | Finite _, NegInf => False
  | Finite a, Finite b => (a <= b)%Q
  end.

(** [x == y] on fitness keys. *)
Definition key_eq (x y : FitnessKey) : Prop := key_le x y ∧ key_le y x.

(** Two keys that [lt] does not separate. *)
Definition tied {K} (lt : K → K → bool) (x y : K) : Prop :=
  lt x y = false ∧ lt y x = false.

#[global] Instance tied_dec {K} (lt : K → K → bool) x y : Decision (tied lt x y).
Proof. unfold tied. apply _. Defined.

(** [a] may stand in front of [b] in a list sorted in ascending order. *)
Definition ascending {A K} (key : A → K) (lt : K → K → bool) (a b : A) : Prop :=
  lt (key b) (key a) = false.

(** [a] may stand in front of [b] in a list sorted in descending order. *)
Definition descending {A K} (key : A → K) (lt : K → K → bool) (a b : A) : Prop :=
  lt (key a) (key b) = false.

#[global] Instance key_le_dec x y : Decision (key_le x y).
Proof.
  destruct x as [|a], y as [|b]; simpl; try apply _.
  destruct (Qlt_le_dec b a) as [Hlt|Hle]; [right|left; exact Hle].
  intros Hle. exact (Qlt_not_le _ _ Hlt Hle).
Defined.

#[global] Instance key_eq_dec x y : Decision (key_eq x y).
Proof. unfold key_eq. apply _. Defined.

(** ** Checkpoint sequences

    One [save] call: the store as it is when the call is made, the
    [generation] argument, the clock reading and the answer of the
    operating system. *)
Record SaveCall : Type := {
  call_self : Population;
  call_generation : Z;
  call_now : string;
  call_refusal : option IoError;
}.

Definition save_call (output_dir : string) (c : SaveCall) (fs : FileSystem)
    : IoOutcome string * FileSystem :=
  save (call_self c) output_dir (call_generation c) (call_now c)
       (call_refusal c) fs.

(** The calls of a run, all into one [output_dir], in call order: the
    outcome of every call and the file system after the last.  The caller
    goes on after a call that raised. *)
Fixpoint checkpoints (output_dir : string) (calls : list SaveCall) (fs : FileSystem)
    : list (IoOutcome string) * FileSystem :=
  match calls with
  | [] => ([], fs)
  | c :: rest =>
      let r := save_call output_dir c fs in
      let rs := checkpoints output_dir rest r.2 in
      (r.1 :: rs.1, rs.2)
  end.

(** The call returned. *)
Definition returned {A} (o : IoOutcome A) : Prop :=
  match o with
  | IoReturned _ => True
  | IoRaised _ => False
  end.

#[global] Instance returned_dec {A} (o : IoOutcome A) : Decision (returned o).
Proof. destruct o; simpl; apply _. Defined.

(** The generation ledger kept under [output_dir]. *)
Definition ledger (fs : FileSystem) (output_dir : string) : list Json :=
  read_lines fs (os_path_join output_dir "population_data.jsonl").

(** The document a [save] call writes. *)
Definition written_by (c : SaveCall) : Json :=
  JDict [("generation", JInt (call_generation c));
         ("timestamp", JStr (call_now c));
         ("genome_ids", JList ((λ g, JStr (id g)) <$> artifacts (call_self c)));
         ("count", JInt (len (artifacts (call_self c))))].

(** ** Cosine distance, in closed form *)

(** The divisor [max(||row i||_2, eps)] of row [i]. *)
Definition row_norm (m : Matrix) (i : nat) : R :=
  Rmax (sqrt (rsum (shape1 m) (λ c, item m i c * item m i c)%R)) normalize_eps.

(** One minus the inner product of the normalised rows [i] and [j]. *)
Definition cosine_distance (m : Matrix) (i j : nat) : R :=
  (1 - rsum (shape1 m)
         (λ c, item m i c / row_norm m i * (item m j c / row_norm m j)))%R.

(** The list of indices a call hands back, if it returns. *)
Definition returned_indices (o : Outcome NoveltyResult) : option (list nat) :=
  match o with
  | Returned (Indices l) => Some l
  | Returned (IndicesAndScores l _) => Some l
  | Raised _ => None
  end.

(** The embeddings are not one row per member of a 2-D tensor. *)
Definition malformed (p : Population) (embeddings : Tensor) : Prop :=
  match embeddings with
  | Tensor2D m => shape0 m ≠ length (artifacts p)
  | _ => True
  end.

(** A matrix given by its rows. *)
Definition matrix_of_rows (ncols : nat) (rows : list (list R)) : Matrix :=
  {| shape0 := length rows; shape1 := ncols;
     item i j := nth j (nth i rows []) 0%R |}.

(** The embeddings [1,0], [0.99,0.01], [0,1]. *)
Definition scenario_embeddings : Matrix :=
  matrix_of_rows 2 [[1; 0]; [99 / 100; 1 / 100]; [0; 1]]%R.

Definition three_artifacts : Population :=
  (add_all [artifact_of 0 "a0" None; artifact_of 1 "a1" None;
            artifact_of 2 "a2" None] __init__).2.

(** Two embeddings, [1,0] and [0,1]: one too few for three artifacts. *)
Definition two_embeddings : Matrix := matrix_of_rows 2 [[1; 0]; [0; 1]]%R.

(** ** Index entries and the collection

    An index entry is sound when it is filed under the id of its record and
    the record is in the ordered collection. *)
Definition index_sound (p : Population) : Prop :=
  ∀ k y, id_to_artifact p !! k = Some y → id y = k ∧ y ∈ artifacts p.

(** Three embeddings whose first row is the zero vector. *)
Definition zero_row_embeddings : Matrix :=
  matrix_of_rows 2 [[0; 0]; [1; 0]; [0; 1]]%R.


(** ** Artifact objects (src/artifacts.py)

    The attributes of an artifact are dynamically typed, and [to_dict] and
    [from_dict] pass them on as they are: they are Python values here.  A
    [dict] is the list of its items, looked up by key.  The embedding is a
    torch tensor or [None]; tensors, [tensor.cpu().numpy().tolist()] and
    [torch.tensor(data)] are left abstract, the latter answering [None]
    when torch raises.  [uuid4] is the string [str(uuid.uuid4())] would
    give, [t_init] and [t_default] are the two successive readings of
    [time.time()] that [__init__] and [from_dict] take. *)
#[warnings="-register-all"]
Inductive PyValue : Type :=
  | PNone
  | PBool (b : bool)
  | PInt (n : Z)
  | PFloat (x : Q)
  | PStr (s : string)
  | PList (l : list PyValue)
  | PDict (items : list (string * PyValue)).

Inductive ArtifactClass : Type :=
  | ClsArtifact
  | ClsShaderArtifact.

Inductive Failure : Type :=
  | KeyError (key : string)
  | NotImplementedError
  | TensorRejected.

Inductive Result (A : Type) : Type :=
  | Done (a : A)
  | Failed (e : Failure).
Arguments Done {A} a.
Arguments Failed {A} e.

Module Obj.

(** [bool(v)] *)
Definition truthy (v : PyValue) : bool :=
  match v with
  | PNone => false
  | PBool b => b
  | PInt n => negb (n =? 0)%Z
  | PFloat x => negb (Qeq_bool x 0)
  | PStr s => if decide (s = EmptyString) then false else true
  | PList l => match l with [] => false | _ => true end
  | PDict items => match items with [] => false | _ => true end
  end.

(** [x or y] *)
Definition or_ (x y : PyValue) : PyValue := if truthy x then x else y.

(** [d[k]], with [None] for the [KeyError]. *)
Fixpoint getitem (k : string) (d : list (string * PyValue)) : option PyValue :=
  match d with
  | [] => None
  | (k', v) :: rest => if decide (k' = k) then Some v else getitem k rest
  end.

(** [d.get(k, default)] *)
Definition get (k : string) (default : PyValue) (d : list (string * PyValue))
    : PyValue :=
  match getitem k d with
  | Some v => v
  | None => default
  end.

(** [cls.__name__] *)
Definition __name__ (cls : ArtifactClass) : string :=
  match cls with
  | ClsArtifact => "Artifact"
  | ClsShaderArtifact => "ShaderArtifact"
  end.

Section tensors.
Context {TensorT : Type}.
Context (tolist : TensorT → PyValue) (torch_tensor : PyValue → option TensorT).

Record t : Type := {
  __class__ : ArtifactClass;
  id : PyValue;
  idea : PyValue;
  genome : PyValue;
  phenome : PyValue;
  prompt : PyValue;
  embedding : option TensorT;
  fitness : PyValue;
  creation_time : PyValue;
  metadata : PyValue;
}.

(** [cls(id=id)] *)
Definition __init__ (cls : ArtifactClass) (id : PyValue) (uuid4 : string)
    (t_init : Q) : t :=
  {| __class__ := cls;
     id := or_ id (PStr uuid4);
     idea := PNone;
     genome := PNone;
     phenome := PNone;
     prompt := PNone;
     embedding := None;
     fitness := PNone;
     creation_time := PFloat t_init;
     metadata := PDict [] |}.

Definition to_dict (self : t) : list (string * PyValue) :=
  let embedding :=
    match embedding self with
    | Some e => tolist e
    | None => PNone
    end in
  [("id", id self);
   ("idea", idea self);
   ("genome", genome self);
   ("phenome", phenome self);
   ("prompt", prompt self);
   ("embedding", embedding);
   ("fitness", fitness self);
   ("creation_time", creation_time self);
   ("metadata", metadata self);
   ("type", PStr (__name__ (__class__ self)))].

(** [Artifact.from_dict] raises [NotImplementedError];
    [ShaderArtifact.from_dict] is the second branch. *)
Definition from_dict (cls : ArtifactClass) (data : list (string * PyValue))
    (uuid4 : string) (t_init t_default : Q) : Result t :=
  match cls with
  | ClsArtifact => Failed NotImplementedError
  | ClsShaderArtifact =>
      match getitem "id" data with
      | None => Failed (KeyError "id")
      | Some data_id =>
          let artifact := __init__ cls data_id uuid4 t_init in
          let artifact :=
            {| __class__ := __class__ artifact;
               id := id artifact;
               idea := get "idea" PNone data;
               genome := get "genome" PNone data;
               phenome := get "phenome" PNone data;
               prompt := get "prompt" PNone data;
               embedding := embedding artifact;
               fitness := get "fitness" PNone data;
               creation_time := get "creation_time" (PFloat t_default) data;
               metadata := get "metadata" (PDict []) data |} in
          match get "embedding" PNone data with
          | PNone => Done artifact
          | data_embedding =>
              match torch_tensor data_embedding with
              | None => Failed TensorRejected
              | Some e =>
                  Done
                    {| __class__ := __class__ artifact;
                       id := id artifact;
                       idea := idea artifact;
                       genome := genome artifact;
                       phenome := phenome artifact;
                       prompt := prompt artifact;
                       embedding := Some e;
                       fitness := fitness artifact;
                       creation_time := creation_time artifact;
                       metadata := metadata artifact |}
              end
          end
      end
  end.

(** The attributes of [self] on a [ShaderArtifact] whose embedding is [e]. *)
Definition rebuilt (self : t) (e : option TensorT) : t :=
  {| __class__ := ClsShaderArtifact;
     id := id self;
     idea := idea self;
     genome := genome self;
     phenome := phenome self;
     prompt := prompt self;
     embedding := e;
     fitness := fitness self;
     creation_time := creation_time self;
     metadata := metadata self |}.

End tensors.

Arguments t TensorT : clear implicits.

(** An instance of the tensor interface: 1-D tensors of floats. *)
Definition vector_tolist (v : list Q) : PyValue := PList (PFloat <$> v).

Fixpoint floats_of (l : list PyValue) : option (list Q) :=
  match l with
  | [] => Some []
  | PFloat x :: rest => (x ::.) <$> floats_of rest
  | _ => None
  end.

Definition vector_of (data : PyValue) : option (list Q) :=
  match data with
  | PList l => floats_of l
  | _ => None
  end.

(** A rendered shader with a fitness and an embedding. *)
Definition sample : t (list Q) :=
  {| __class__ := ClsShaderArtifact;
     id := PStr "a0";
     idea := PNone;
     genome := PStr "void main() {}";
     phenome := PStr "out/a0.png";
     prompt := PStr "waves";
     embedding := Some [0.5%Q; 0.25%Q];
     fitness := PFloat 0.9%Q;
     creation_time := PFloat 1700000000%Q;
     metadata := PDict [("parent_id", PStr "root")] |}.

End Obj.

(** * Verification *)

(** ** The embedding at work *)

Example slice_to_negative : slice_to (-1) [1; 2; 3] = [1; 2].
Proof. reflexivity. Qed.

Example sorted_reverse_keeps_ties :
  id <$> sorted fitness_key key_lt true
           [artifact_of 0 "p" (Some 0.5%Q); artifact_of 1 "q" None;
            artifact_of 2 "r" (Some (1 # 2)); artifact_of 3 "s" None;
            artifact_of 4 "u" (Some 0.7%Q)]
  = ["u"; "p"; "r"; "q"; "s"].
Proof. reflexivity. Qed.

Example get_best_negative_count :
  id <$> get_best (-1) scenario_population = ["a2"; "a3"; "a0"; "a4"].
Proof. reflexivity. Qed.

Example get_random_draws :
  get_random [7; 1; 8] 3 scenario_population
  = Returned [artifact_of 2 "a2" (Some 0.9%Q); artifact_of 1 "a1" None;
              artifact_of 4 "a4" (Some 0.1%Q)].
Proof. reflexivity. Qed.

Example get_random_capped :
  get_random [] 9 scenario_population = Returned scenario_artifacts.
Proof. reflexivity. Qed.

Example get_random_negative_count :
  get_random [] (-1) scenario_population = Raised ValueError.
Proof. reflexivity. Qed.

Example remove_other_object_with_known_id :
  let p := (add twin_a __init__).2 in
  (remove twin_b p).1 = Raised ValueError ∧ (remove twin_b p).2 = p.
Proof. split; reflexivity. Qed.

Example remove_absent_id :
  remove twin_a scenario_population = (Returned tt, scenario_population).
Proof. reflexivity. Qed.

Example os_path_join_cases :
  os_path_join "out" "population_data.jsonl" = "out/population_data.jsonl" ∧
  os_path_join "out/" "population_data.jsonl" = "out/population_data.jsonl" ∧
  os_path_join "" "population_data.jsonl" = "population_data.jsonl".
Proof. repeat split. Qed.

Example save_empty_output_dir :
  save scenario_population "" 7 "2025-01-01T00:00:00" None ∅
  = (IoRaised FileNotFoundError, ∅).
Proof. reflexivity. Qed.

Example save_writes_one_line :
  save scenario_population "out" 7 "2025-01-01T00:00:00" None ∅
  = (IoReturned "out/population_data.jsonl",
     {[ "out/population_data.jsonl" :=
          [JDict [("generation", JInt 7);
                  ("timestamp", JStr "2025-01-01T00:00:00");
                  ("genome_ids",
                   JList [JStr "a0"; JStr "a1"; JStr "a2"; JStr "a3"; JStr "a4"]);
                  ("count", JInt 5)]] ]}).
Proof. reflexivity. Qed.

(** ** The population store *)

Lemma consistent_init : consistent __init__.
Proof.
  split; simpl; [constructor|].
  intros i a. rewrite lookup_empty. split; [done|].
  intros [H _]. by apply elem_of_nil in H.
Qed.

Lemma add_fresh_consistent a p :
  consistent p → id_to_artifact p !! id a = None → consistent (add a p).2.
Proof.
  intros [Hnd Hix] Hfresh. split; simpl.
  - rewrite fmap_app. apply NoDup_app. split; [done|]. split.
    + intros i Hi Hi'. apply list_elem_of_singleton in Hi'. subst i.
      apply list_elem_of_fmap in Hi as (x & Hx & Hin).
      assert (id_to_artifact p !! id x = Some x) as Hsome by (apply Hix; done).
      rewrite <- Hx in Hsome. congruence.
    + simpl. apply NoDup_singleton.
  - intros i x. destruct (decide (id a = i)) as [<-|Hne].
    + rewrite lookup_insert_eq. split.
      * intros [= <-]. split; [|done]. apply elem_of_app. right. by left.
      * intros [Hin Hid]. apply elem_of_app in Hin as [Hin|Hin].
        -- assert (id_to_artifact p !! id x = Some x) as Hsome by (apply Hix; done).
           rewrite Hid in Hsome. congruence.
        -- apply list_elem_of_singleton in Hin. by subst.
    + rewrite lookup_insert_ne by done. rewrite Hix. split.
      * intros [Hin Hid]. split; [|done]. apply elem_of_app. by left.
      * intros [Hin Hid]. split; [|done]. apply elem_of_app in Hin as [Hin|Hin]; [done|].
        apply list_elem_of_singleton in Hin. subst x. done.
Qed.

Lemma add_all_fresh_consistent l : ∀ p,
  consistent p → NoDup (id <$> l) →
  (∀ a, a ∈ l → id_to_artifact p !! id a = None) →
  consistent (add_all l p).2.
Proof.
  induction l as [|a l IH]; intros p Hc Hnd Hfresh; simpl; [done|].
  rewrite fmap_cons in Hnd. apply NoDup_cons in Hnd as [Hnotin Hnd].
  apply IH; [|done|].
  - apply (add_fresh_consistent a p Hc). apply Hfresh. by left.
  - intros x Hx. simpl. rewrite lookup_insert_ne.
    + apply Hfresh. by right.
    + intros Heq. apply Hnotin. rewrite Heq. apply list_elem_of_fmap. eauto.
Qed.

Lemma list_remove_first_Some `{EqDecision A} (x : A) l l' :
  list_remove_first x l = Some l' →
  ∃ l1 l2, l = l1 ++ x :: l2 ∧ l' = l1 ++ l2.
Proof.
  revert l'. induction l as [|y l IH]; intros l' H; simpl in H; [done|].
  destruct (decide (y = x)) as [->|Hne].
  - injection H as <-. by exists [], l.
  - destruct (list_remove_first x l) as [l0|] eqn:E; simpl in H; [|done].
    injection H as <-. destruct (IH l0 eq_refl) as (l1 & l2 & -> & ->).
    by exists (y :: l1), l2.
Qed.

Lemma list_remove_first_None `{EqDecision A} (x : A) l :
  list_remove_first x l = None ↔ x ∉ l.
Proof.
  induction l as [|y l IH]; simpl.
  - split; [intros _; apply not_elem_of_nil|done].
  - destruct (decide (y = x)) as [->|Hne].
    + split; [done|]. intros H. exfalso. apply H. by left.
    + destruct (list_remove_first x l) eqn:E; simpl.
      * split; [done|]. intros H. exfalso. apply not_elem_of_cons in H as [_ H].
        by apply IH in H.
      * split; [|done]. intros _. apply not_elem_of_cons. split; [done|]. by apply IH.
Qed.

Lemma remove_consistent a p : consistent p → consistent (remove a p).2.
Proof.
  intros [Hnd Hix]. unfold remove.
  destruct (decide (is_Some (id_to_artifact p !! id a))) as [Hs|Hn]; [|by split].
  destruct (list_remove_first a (artifacts p)) as [l'|] eqn:E; [|by split].
  apply list_remove_first_Some in E as (l1 & l2 & Hl & ->).
  rewrite Hl in Hnd, Hix. rewrite fmap_app, fmap_cons in Hnd.
  apply NoDup_app in Hnd as (Hnd1 & Hdisj & Hnd2).
  apply NoDup_cons in Hnd2 as [Hnotin2 Hnd2].
  assert (id a ∉ id <$> l1) as Hnotin1.
  { intros Hin. apply (Hdisj _ Hin). by left. }
  split; simpl.
  - rewrite fmap_app. apply NoDup_app. split; [done|]. split; [|done].
    intros i Hi Hi'. apply (Hdisj _ Hi). by right.
  - intros i x. destruct (decide (id a = i)) as [<-|Hne].
    + rewrite lookup_delete_eq. split; [done|]. intros [Hin Hid]. exfalso.
      apply elem_of_app in Hin as [Hin|Hin].
      * apply Hnotin1. rewrite <- Hid. apply list_elem_of_fmap. eauto.
      * apply Hnotin2. rewrite <- Hid. apply list_elem_of_fmap. eauto.
    + rewrite lookup_delete_ne by done. rewrite Hix. split.
      * intros [Hin Hid]. split; [|done]. apply elem_of_app.
        apply elem_of_app in Hin as [Hin|Hin]; [by left|].
        apply elem_of_cons in Hin as [->|Hin]; [done|by right].
      * intros [Hin Hid]. split; [|done]. apply elem_of_app.
        apply elem_of_app in Hin as [Hin|Hin]; [by left|]. right. by right.
Qed.

Lemma run_consistent calls : ∀ p,
  consistent p → well_called calls p → consistent (run calls p).
Proof.
  induction calls as [|c calls IH]; intros p Hc Hw; simpl; [done|].
  destruct Hw as [Hfresh Hw]. apply IH; [|done].
  destruct c as [a|l|a]; simpl in *.
  - by apply (add_fresh_consistent a p).
  - destruct Hfresh. by apply add_all_fresh_consistent.
  - by apply remove_consistent.
Qed.

(** C1, as the code has it: [add] on an id the store already holds raises
    nothing.  It appends the artifact to the ordered collection, which grows
    by one, and re-points the index entry of that id to the new artifact;
    the set of indexed ids and every other entry stay as they were. *)
Theorem add_existing_id_appends_and_overwrites (p : Population) (a : Artifact) :
  is_Some (id_to_artifact p !! id a) →
  (add a p).1 = Returned tt ∧
  artifacts (add a p).2 = artifacts p ++ [a] ∧
  length (artifacts (add a p).2) = S (length (artifacts p)) ∧
  id_to_artifact (add a p).2 !! id a = Some a ∧
  (∀ i, i ≠ id a → id_to_artifact (add a p).2 !! i = id_to_artifact p !! i) ∧
  dom (id_to_artifact (add a p).2) = dom (id_to_artifact p).
Proof.
  intros Hs. simpl. repeat split.
  - rewrite length_app. simpl. lia.
  - apply lookup_insert_eq.
  - intros i Hi. apply lookup_insert_ne. congruence.
  - by apply dom_insert_lookup_L.
Qed.

Lemma add_existing_id_appends_and_overwrites_witness :
  artifacts (add twin_b (add twin_a __init__).2).2 = [twin_a] ++ [twin_b].
Proof.
  apply (add_existing_id_appends_and_overwrites (add twin_a __init__).2 twin_b).
  simpl. rewrite lookup_insert_eq. by eexists.
Defined.

(** C1, counterexample: the store holds [twin_a] under the id "x"; adding
    [twin_b], another object with the id "x", returns normally and changes
    both the ordered collection and the index. *)
Lemma add_duplicate_id_counterexample :
  let p := (add twin_a __init__).2 in
  is_Some (id_to_artifact p !! id twin_b) ∧
  (add twin_b p).1 = Returned tt ∧
  artifacts p = [twin_a] ∧
  artifacts (add twin_b p).2 = [twin_a; twin_b] ∧
  id_to_artifact p !! id twin_b = Some twin_a ∧
  id_to_artifact (add twin_b p).2 !! id twin_b = Some twin_b ∧
  (add twin_b p).2 ≠ p.
Proof.
  simpl. repeat split; try by (rewrite ?lookup_insert_eq; eauto).
Qed.

(** C9, as the code has it: starting from the empty store, every sequence of
    [add], [add_all] and [remove] calls in which no call inserts an id that
    the store holds at that moment (nor one id twice in a batch) leaves the
    ordered collection and the id index consistent: ids are unique in the
    collection, every record of the collection is the index entry of its id,
    and every index entry is a record of the collection. *)
Theorem store_consistent_under_fresh_ids (calls : list Call) :
  well_called calls __init__ → consistent (run calls __init__).
Proof. intros Hw. apply run_consistent; [apply consistent_init|done]. Qed.

Lemma store_consistent_under_fresh_ids_witness :
  consistent
    (run [CallAdd twin_a; CallRemove twin_b; CallAddAll scenario_artifacts;
          CallRemove twin_a; CallAdd twin_b] __init__).
Proof.
  apply store_consistent_under_fresh_ids.
  simpl. repeat split; try done.
  - compute_done.
  - intros a Ha. unfold twin_a in Ha. simpl in Ha.
    repeat (apply elem_of_cons in Ha as [->|Ha]; [done|]).
    by apply elem_of_nil in Ha.
Defined.

(** C9, counterexample: two [add] calls with one id leave two records in the
    collection and a single index entry, so ids are not unique; removing the
    first record then drops the index entry of the record that stays. *)
Lemma store_consistency_counterexample :
  ¬ consistent (run [CallAdd twin_a; CallAdd twin_b] __init__) ∧
  artifacts (run [CallAdd twin_a; CallAdd twin_b] __init__) = [twin_a; twin_b] ∧
  artifacts (run [CallAdd twin_a; CallAdd twin_b; CallRemove twin_a] __init__)
    = [twin_b] ∧
  id_to_artifact (run [CallAdd twin_a; CallAdd twin_b; CallRemove twin_a] __init__)
    !! id twin_b = None.
Proof.
  split; [|repeat split].
  intros [Hnd _]. simpl in Hnd. apply NoDup_cons in Hnd as [Hnotin _].
  apply Hnotin. by left.
Qed.

(** ** Random sampling *)

Lemma draw_without_replacement_spec size : ∀ rng pool,
  size ≤ length pool → NoDup pool →
  length (draw_without_replacement rng pool size) = size ∧
  NoDup (draw_without_replacement rng pool size) ∧
  ∀ i, i ∈ draw_without_replacement rng pool size → i ∈ pool.
Proof.
  induction size as [|size IH]; intros rng pool Hle Hnd; simpl.
  - split; [done|]. split; [constructor|]. intros i Hi. by apply elem_of_nil in Hi.
  - assert (hd 0 rng `mod` length pool < length pool) as Hr.
    { apply Nat.mod_upper_bound. lia. }
    destruct (lookup_lt_is_Some_2 pool _ Hr) as [x Hx]. rewrite Hx.
    pose proof (take_drop_middle pool _ x Hx) as Hmid.
    rewrite delete_take_drop.
    set (rest := take (hd 0 rng `mod` length pool) pool
                 ++ drop (S (hd 0 rng `mod` length pool)) pool) in *.
    assert (pool ≡ₚ x :: rest) as Hperm.
    { rewrite <- Hmid at 1. unfold rest. symmetry. apply Permutation_middle. }
    assert (NoDup (x :: rest)) as Hnd' by (by rewrite <- Hperm).
    apply NoDup_cons in Hnd' as [Hx_notin Hnd_rest].
    assert (size ≤ length rest) as Hle'.
    { apply Permutation_length in Hperm. simpl in Hperm. lia. }
    destruct (IH (tl rng) rest Hle' Hnd_rest) as (Hlen & Hnd_draw & Hsub).
    split; [simpl; lia|]. split.
    + apply NoDup_cons. split; [|done]. intros Hin. by apply Hx_notin, Hsub.
    + intros i Hi. rewrite Hperm. apply elem_of_cons in Hi as [->|Hi]; [by left|].
      right. by apply Hsub.
Qed.

Lemma comprehension_getitem {A} (l : list A) (indices : list nat) :
  (∀ i, i ∈ indices → i < length l) →
  ∃ result, comprehension (getitem l) indices = Returned result ∧
            Forall2 (λ i a, l !! i = Some a) indices result.
Proof.
  induction indices as [|i indices IH]; intros Hlt; simpl.
  - exists []. split; [done|constructor].
  - destruct IH as (res & Hres & Hall).
    { intros j Hj. apply Hlt. by right. }
    assert (i < length l) as Hi by (apply Hlt; by left).
    destruct (lookup_lt_is_Some_2 l i Hi) as [x Hx].
    exists (x :: res). rewrite Hres. unfold getitem. rewrite Hx.
    split; [done|by constructor].
Qed.

Lemma lookups_seq {A} (l : list A) :
  Forall2 (λ i a, l !! i = Some a) (seq 0 (length l)) l.
Proof.
  apply Forall2_lookup. intros i. destruct (l !! i) as [x|] eqn:E.
  - rewrite lookup_seq_lt by (by eapply lookup_lt_Some). constructor. exact E.
  - rewrite lookup_seq_ge by (by apply lookup_ge_None). constructor.
Qed.

Lemma lookups_NoDup {A} (l : list A) indices result :
  NoDup l → NoDup indices →
  Forall2 (λ i a, l !! i = Some a) indices result → NoDup result.
Proof.
  intros Hl Hind Hall. induction Hall as [|i a indices result Hia Hall IH].
  - constructor.
  - apply NoDup_cons in Hind as [Hnotin Hind]. apply NoDup_cons. split; [|by apply IH].
    intros Hin. apply list_elem_of_lookup in Hin as [n Hn].
    destruct (Forall2_lookup_r _ _ _ _ _ Hall Hn) as (j & Hj & Hja).
    assert (i = j) as -> by exact (NoDup_lookup l i j a Hl Hia Hja).
    apply Hnotin. apply list_elem_of_lookup. by exists n.
Qed.

(** C7: for every store of size [n], every generator state and every count
    [k >= 0], [get_random] returns exactly [min(k, n)] records, read at
    pairwise distinct positions of the ordered collection (sampling without
    replacement); for [k >= n] it returns all members, each once, and it
    does not fail.  Where the members are distinct, so are the records
    returned. *)
Theorem get_random_returns_min_distinct (rng : list nat) (count : Z) (p : Population) :
  (0 ≤ count)%Z →
  ∃ result indices,
    get_random rng count p = Returned result ∧
    length result = Z.to_nat count `min` length (artifacts p) ∧
    NoDup indices ∧
    Forall2 (λ i a, artifacts p !! i = Some a) indices result ∧
    ((len (artifacts p) ≤ count)%Z → result = artifacts p) ∧
    (NoDup (artifacts p) → NoDup result).
Proof.
  intros Hcount. unfold get_random, len.
  rewrite Z.geb_leb.
  destruct (Z.of_nat (length (artifacts p)) <=? count)%Z eqn:Hge.
  - apply Z.leb_le in Hge.
    exists (artifacts p), (seq 0 (length (artifacts p))). unfold get_all.
    split; [done|]. split; [lia|]. split; [apply NoDup_seq|].
    split; [apply lookups_seq|]. done.
  - apply Z.leb_gt in Hge. unfold np_random_choice.
    destruct (count <? 0)%Z eqn:Hneg; [apply Z.ltb_lt in Hneg; lia|].
    destruct (Z.of_nat (length (artifacts p)) <? count)%Z eqn:Hbig;
      [apply Z.ltb_lt in Hbig; lia|].
    simpl.
    set (indices := draw_without_replacement rng (seq 0 (length (artifacts p)))
                      (Z.to_nat count)).
    destruct (draw_without_replacement_spec (Z.to_nat count) rng
                (seq 0 (length (artifacts p)))) as (Hlen & Hnd & Hsub).
    { rewrite length_seq. lia. }
    { apply NoDup_seq. }
    fold indices in Hlen, Hnd, Hsub.
    destruct (comprehension_getitem (artifacts p) indices) as (result & Hres & Hall).
    { intros i Hi. apply Hsub, elem_of_seq in Hi. lia. }
    exists result, indices. split; [done|]. split.
    { apply Forall2_length in Hall. lia. }
    split; [done|]. split; [done|]. split; [lia|].
    intros Hnd_arts. by eapply lookups_NoDup.
Qed.

Lemma get_random_returns_min_distinct_witness :
  ∃ result indices,
    get_random [7; 1; 8] 3 scenario_population = Returned result ∧
    length result = Z.to_nat 3 `min` length (artifacts scenario_population) ∧
    NoDup indices ∧
    Forall2 (λ i a, artifacts scenario_population !! i = Some a) indices result ∧
    ((len (artifacts scenario_population) ≤ 3)%Z →
     result = artifacts scenario_population) ∧
    (NoDup (artifacts scenario_population) → NoDup result).
Proof. apply (get_random_returns_min_distinct [7; 1; 8] 3 scenario_population). lia. Defined.

(** ** Sorting *)

Lemma rev_reverse {A} (l : list A) : rev l = reverse l.
Proof. apply rev_alt. Qed.

Lemma filter_none {A} (P : A → Prop) `{∀ x, Decision (P x)} (l : list A) :
  (∀ x, x ∈ l → ¬ P x) → filter P l = [].
Proof.
  induction l as [|x l IH]; intros Hl; [done|].
  rewrite filter_cons. destruct (decide (P x)) as [HP|_].
  - exfalso. apply (Hl x); [by left|done].
  - apply IH. intros y Hy. apply Hl. by right.
Qed.

Lemma StronglySorted_weaken {B} (R R' : relation B) l :
  (∀ a b, R a b → R' a b) → StronglySorted R l → StronglySorted R' l.
Proof.
  intros HR. induction 1 as [|x l Hs IH Hx]; constructor; [done|].
  eapply Forall_impl; [exact Hx|]. intros b. apply HR.
Qed.

Section sort_facts.
Context {A K : Type} (key : A → K) (lt : K → K → bool).

(** [lt] is a strict weak order. *)
Hypothesis lt_asym : ∀ x y, lt x y = true → lt y x = false.
Hypothesis lt_negtrans : ∀ x y z, lt x z = true → lt x y = true ∨ lt y z = true.

Local Abbreviation ascending := (ascending key lt).
Local Abbreviation descending := (descending key lt).

Lemma insort_Permutation x l : insort key lt x l ≡ₚ x :: l.
Proof.
  induction l as [|y l IH]; simpl; [done|].
  destruct (lt (key x) (key y)); [done|].
  rewrite IH. apply Permutation_swap.
Qed.

Lemma foldl_insort_Permutation l : ∀ acc,
  foldl (λ acc x, insort key lt x acc) acc l ≡ₚ acc ++ l.
Proof.
  induction l as [|x l IH]; intros acc; simpl.
  - by rewrite app_nil_r.
  - rewrite IH, insort_Permutation. simpl. apply Permutation_middle.
Qed.

Lemma list_sort_Permutation l : list_sort key lt l ≡ₚ l.
Proof. unfold list_sort. by rewrite foldl_insort_Permutation. Qed.

Lemma sorted_Permutation reverse l : sorted key lt reverse l ≡ₚ l.
Proof.
  unfold sorted. destruct reverse; [|apply list_sort_Permutation].
  rewrite <- Permutation_rev, list_sort_Permutation. symmetry. apply Permutation_rev.
Qed.

Lemma insort_ascending x l :
  StronglySorted ascending l → StronglySorted ascending (insort key lt x l).
Proof.
  induction l as [|y l IH]; intros Hs; simpl.
  - repeat constructor.
  - apply StronglySorted_inv in Hs as [Hs Hy].
    destruct (lt (key x) (key y)) eqn:Hxy.
    + constructor; [by constructor|]. constructor.
      * by apply lt_asym.
      * rewrite Forall_forall in Hy |- *. intros z Hz. unfold ascending.
        destruct (lt (key z) (key x)) eqn:Hzx; [|done].
        destruct (lt_negtrans _ (key y) _ Hzx) as [Hzy|Hyx].
        -- specialize (Hy z Hz). unfold ascending in Hy. congruence.
        -- apply lt_asym in Hxy. congruence.
    + constructor; [by apply IH|].
      rewrite Forall_forall in Hy |- *. intros z Hz.
      rewrite insort_Permutation in Hz. apply elem_of_cons in Hz as [->|Hz].
      * exact Hxy.
      * by apply Hy.
Qed.

Lemma foldl_insort_ascending l : ∀ acc,
  StronglySorted ascending acc →
  StronglySorted ascending (foldl (λ acc x, insort key lt x acc) acc l).
Proof.
  induction l as [|x l IH]; intros acc Hs; simpl; [done|].
  by apply IH, insort_ascending.
Qed.

Lemma list_sort_ascending l : StronglySorted ascending (list_sort key lt l).
Proof. apply foldl_insort_ascending. constructor. Qed.

Lemma StronglySorted_rev {B} (R : relation B) l :
  StronglySorted R l → StronglySorted (flip R) (rev l).
Proof.
  induction 1 as [|x l Hs IH Hx]; simpl; [constructor|].
  apply StronglySorted_app_2; [|done|repeat constructor].
  intros a b Ha Hb. apply list_elem_of_singleton in Hb. subst b.
  apply list_elem_of_In, in_rev, list_elem_of_In in Ha.
  rewrite Forall_forall in Hx. by apply Hx.
Qed.

Lemma sorted_reverse_descending l :
  StronglySorted descending (sorted key lt true l).
Proof. unfold sorted. apply (StronglySorted_rev ascending), list_sort_ascending. Qed.

(** Stability: the items tied with a key [v] keep their order. *)
Lemma insort_filter_tied v x l :
  StronglySorted ascending l →
  filter (λ a, tied lt (key a) v) (insort key lt x l) =
  filter (λ a, tied lt (key a) v) l ++ filter (λ a, tied lt (key a) v) [x].
Proof.
  induction l as [|y l IH]; intros Hs; simpl; [done|].
  destruct (lt (key x) (key y)) eqn:Hxy.
  - rewrite !(filter_cons _ x), filter_nil.
    destruct (decide (tied lt (key x) v)) as [Hx|Hx]; [|by rewrite app_nil_r].
    assert (filter (λ a, tied lt (key a) v) (y :: l) = []) as ->; [|done].
    apply filter_none. intros z Hz [Hzv Hvz].
    assert (lt (key x) (key z) = true) as Hxz.
    { apply elem_of_cons in Hz as [->|Hz]; [done|].
      apply StronglySorted_inv in Hs as [_ Hy]. rewrite Forall_forall in Hy.
      destruct (lt_negtrans _ (key z) _ Hxy) as [?|Hzy]; [done|].
      specialize (Hy z Hz). unfold ascending in Hy. congruence. }
    destruct Hx as [Hxv _].
    destruct (lt_negtrans _ v _ Hxz); congruence.
  - apply StronglySorted_inv in Hs as [Hs _].
    rewrite !(filter_cons _ y).
    destruct (decide (tied lt (key y) v)); simpl; by rewrite IH.
Qed.

Lemma foldl_insort_filter_tied v l : ∀ acc,
  StronglySorted ascending acc →
  filter (λ a, tied lt (key a) v) (foldl (λ acc x, insort key lt x acc) acc l) =
  filter (λ a, tied lt (key a) v) acc ++ filter (λ a, tied lt (key a) v) l.
Proof.
  induction l as [|x l IH]; intros acc Hs; simpl.
  - by rewrite filter_nil, app_nil_r.
  - rewrite IH by (by apply insort_ascending).
    rewrite insort_filter_tied by done.
    rewrite <- app_assoc. f_equal. by rewrite <- filter_app.
Qed.

Lemma list_sort_stable v l :
  filter (λ a, tied lt (key a) v) (list_sort key lt l) =
  filter (λ a, tied lt (key a) v) l.
Proof. unfold list_sort. rewrite foldl_insort_filter_tied; [done|constructor]. Qed.

Lemma sorted_stable v reverse l :
  filter (λ a, tied lt (key a) v) (sorted key lt reverse l) =
  filter (λ a, tied lt (key a) v) l.
Proof.
  unfold sorted. destruct reverse; [|apply list_sort_stable].
  rewrite !rev_reverse. rewrite filter_reverse, list_sort_stable, filter_reverse. apply reverse_involutive.
Qed.

End sort_facts.

(** ** Fitness ranking *)

Lemma key_lt_Finite a b : key_lt (Finite a) (Finite b) = true ↔ (a < b)%Q.
Proof.
  simpl. rewrite Qlt_alt. destruct (a ?= b)%Q; split; congruence.
Qed.

Lemma key_lt_false x y : key_lt y x = false ↔ key_le x y.
Proof.
  destruct x as [|a], y as [|b]; simpl; try (split; congruence || done).
  rewrite Qge_alt. destruct (b ?= a)%Q; split; congruence.
Qed.

Lemma key_lt_asym x y : key_lt x y = true → key_lt y x = false.
Proof.
  destruct x as [|a], y as [|b]; try done.
  rewrite key_lt_Finite. intros Hlt. apply key_lt_false. simpl.
  by apply Qlt_le_weak.
Qed.

Lemma key_lt_negtrans x y z :
  key_lt x z = true → key_lt x y = true ∨ key_lt y z = true.
Proof.
  destruct x as [|a], y as [|b], z as [|c]; simpl; try (intros; by auto).
  intros Hac. apply (key_lt_Finite a c) in Hac.
  destruct (Qlt_le_dec a b) as [Hab|Hba].
  - left. by apply (key_lt_Finite a b).
  - right. apply (key_lt_Finite b c). by eapply Qle_lt_trans.
Qed.

Lemma tied_key_eq x y : tied key_lt x y ↔ key_eq x y.
Proof. unfold tied, key_eq. rewrite !key_lt_false. tauto. Qed.

(** C5: for every store and every count [>= 0], [get_best] returns
    [min(count, size)] records (fewer than [count] when the store is
    smaller), in descending order of fitness with an unset fitness ranked as
    negative infinity; no record left out has a fitness above one that is
    returned; among records of equal fitness the ones returned are the first
    inserted, in insertion order (the sort is stable).  For the fitnesses
    0.2, None, 0.9, 0.5, 0.1 inserted in that order, [get_best(2)] is the
    record with fitness 0.9 followed by the one with fitness 0.5. *)
Theorem get_best_top_count_stable (count : Z) (p : Population) :
  (0 ≤ count)%Z →
  length (get_best count p) = Z.to_nat count `min` length (artifacts p) ∧
  StronglySorted (λ a b, key_le (fitness_key b) (fitness_key a)) (get_best count p) ∧
  (∃ rest, get_best count p ++ rest ≡ₚ artifacts p ∧
     ∀ a b, a ∈ get_best count p → b ∈ rest →
            key_le (fitness_key b) (fitness_key a)) ∧
  (∀ v, filter (λ a, key_eq (fitness_key a) v) (get_best count p) `prefix_of`
        filter (λ a, key_eq (fitness_key a) v) (artifacts p)) ∧
  get_best 2 scenario_population =
    [artifact_of 2 "a2" (Some 0.9%Q); artifact_of 3 "a3" (Some 0.5%Q)].
Proof.
  intros Hcount. unfold get_best, slice_to.
  destruct (0 <=? count)%Z eqn:Hnonneg; [|apply Z.leb_gt in Hnonneg; lia].
  set (s := sorted fitness_key key_lt true (artifacts p)).
  assert (s ≡ₚ artifacts p) as Hperm by apply sorted_Permutation.
  assert (StronglySorted (λ a b, key_le (fitness_key b) (fitness_key a)) s) as Hsorted.
  { eapply StronglySorted_weaken;
      [|apply (sorted_reverse_descending fitness_key key_lt key_lt_asym key_lt_negtrans)].
    intros a b Hab. by apply key_lt_false. }
  split; [|split; [|split; [|split]]].
  - rewrite length_take. apply Permutation_length in Hperm. lia.
  - rewrite <- (take_drop (Z.to_nat count) s) in Hsorted.
    by apply StronglySorted_app_1_l in Hsorted.
  - exists (drop (Z.to_nat count) s). rewrite take_drop. split; [done|].
    intros a b Ha Hb. rewrite <- (take_drop (Z.to_nat count) s) in Hsorted.
    exact (StronglySorted_app_1_elem_of _ _ _ a b Hsorted Ha Hb).
  - intros v.
    rewrite !(list_filter_iff (λ a, key_eq (fitness_key a) v)
                (λ a, tied key_lt (fitness_key a) v))
      by (intros a; symmetry; apply tied_key_eq).
    rewrite <- (sorted_stable fitness_key key_lt key_lt_asym key_lt_negtrans v true
                  (artifacts p)).
    fold s. rewrite <- (take_drop (Z.to_nat count) s) at 2.
    rewrite filter_app. by apply prefix_app_r.
  - vm_compute. reflexivity.
Qed.

Lemma get_best_top_count_stable_witness :
  length (get_best 2 scenario_population) = 2.
Proof.
  apply (get_best_top_count_stable 2 scenario_population). lia.
Defined.

(** ** The generation ledger *)

Lemma save_call_returned c output_dir fs :
  returned (save_call output_dir c fs).1 →
  (save_call output_dir c fs).1
  = IoReturned (os_path_join output_dir "population_data.jsonl") ∧
  ledger (save_call output_dir c fs).2 output_dir
  = ledger fs output_dir ++ [written_by c].
Proof.
  unfold save_call, save.
  destruct (decide (output_dir = EmptyString)); [done|].
  destruct (call_refusal c); [done|]. intros _. split; [done|].
  unfold ledger, append_line, read_lines. simpl. by rewrite lookup_insert_eq.
Qed.

Lemma save_call_raised c output_dir fs :
  ¬ returned (save_call output_dir c fs).1 → (save_call output_dir c fs).2 = fs.
Proof.
  unfold save_call, save.
  destruct (decide (output_dir = EmptyString)); [done|].
  destruct (call_refusal c); [done|]. simpl. tauto.
Qed.

Lemma checkpoints_ledger output_dir calls : ∀ fs,
  Forall returned (checkpoints output_dir calls fs).1 →
  ledger (checkpoints output_dir calls fs).2 output_dir
  = ledger fs output_dir ++ (written_by <$> calls).
Proof.
  induction calls as [|c calls IH]; intros fs Hall.
  - simpl. by rewrite app_nil_r.
  - cbn [checkpoints fst snd] in Hall |- *. apply Forall_cons in Hall as [Hc Hall].
    rewrite (IH _ Hall). destruct (save_call_returned c output_dir fs Hc) as [_ ->].
    by rewrite fmap_cons, <- app_assoc.
Qed.

(** C8: when the ledger file starts out empty or missing and each of the
    [N] [save] calls of a run returns (which takes a non-empty [output_dir]
    and an operating system that lets [os.makedirs] and [open] through),
    the ledger then holds exactly [N] entries, in call order; the entry of a
    call carries the ids of the members in the order the store holds them at
    that call, a [count] equal to the length of that id list, and the
    generation number and timestamp of the call. *)
Theorem ledger_after_checkpoints (output_dir : string) (calls : list SaveCall)
    (fs : FileSystem) :
  ledger fs output_dir = [] →
  Forall returned (checkpoints output_dir calls fs).1 →
  length (ledger (checkpoints output_dir calls fs).2 output_dir) = length calls ∧
  ∀ i c, calls !! i = Some c →
    ∃ entry ids,
      ledger (checkpoints output_dir calls fs).2 output_dir !! i = Some entry ∧
      ids = id <$> artifacts (call_self c) ∧
      json_get "genome_ids" entry = Some (JList (JStr <$> ids)) ∧
      json_get "count" entry = Some (JInt (len ids)) ∧
      json_get "generation" entry = Some (JInt (call_generation c)) ∧
      json_get "timestamp" entry = Some (JStr (call_now c)).
Proof.
  intros Hempty Hall. rewrite checkpoints_ledger, Hempty by done. simpl. split.
  - by rewrite length_fmap.
  - intros i c Hc. exists (written_by c), (id <$> artifacts (call_self c)).
    split; [by rewrite list_lookup_fmap, Hc|]. split; [done|].
    unfold written_by, len. simpl. rewrite length_fmap.
    repeat split. by rewrite <- list_fmap_compose.
Qed.

Lemma ledger_after_checkpoints_witness :
  length
    (ledger
       (checkpoints "out"
          [{| call_self := __init__; call_generation := 0; call_now := "t0";
              call_refusal := None |};
           {| call_self := scenario_population; call_generation := 1;
              call_now := "t1"; call_refusal := None |}] ∅).2 "out") = 2.
Proof.
  apply (ledger_after_checkpoints "out"
           [{| call_self := __init__; call_generation := 0; call_now := "t0";
               call_refusal := None |};
            {| call_self := scenario_population; call_generation := 1;
               call_now := "t1"; call_refusal := None |}] ∅).
  - reflexivity.
  - repeat constructor.
Defined.

(** ** Novelty scoring *)

Lemma rsum_S n f : rsum (S n) f = (rsum n f + f n)%R.
Proof.
  unfold rsum. rewrite seq_S, fmap_app, foldr_app. simpl.
  generalize (f <$> seq 0 n). intros l. induction l as [|x l IH]; simpl; lra.
Qed.

Lemma rsum_le n f g :
  (∀ c, c < n → (f c <= g c)%R) → (rsum n f <= rsum n g)%R.
Proof.
  induction n as [|n IH]; intros Hfg; [unfold rsum; simpl; lra|].
  rewrite !rsum_S. specialize (Hfg n (Nat.lt_succ_diag_r n)) as Hn.
  assert (rsum n f <= rsum n g)%R by (apply IH; intros c Hc; apply Hfg; lia).
  lra.
Qed.

Lemma rsum_plus n f g : rsum n (λ c, f c + g c)%R = (rsum n f + rsum n g)%R.
Proof.
  induction n as [|n IH]; [unfold rsum; simpl; lra|]. rewrite !rsum_S, IH. lra.
Qed.

Lemma rsum_scale n a f : rsum n (λ c, a * f c)%R = (a * rsum n f)%R.
Proof.
  induction n as [|n IH]; [unfold rsum; simpl; lra|]. rewrite !rsum_S, IH. lra.
Qed.

Lemma rsum_ext n f g : (∀ c, c < n → f c = g c) → rsum n f = rsum n g.
Proof.
  induction n as [|n IH]; intros Hfg; [done|].
  rewrite !rsum_S, Hfg by lia. rewrite IH; [done|]. intros c Hc. apply Hfg. lia.
Qed.

Lemma rsum_squares_nonneg n f : (0 <= rsum n (λ c, f c * f c))%R.
Proof.
  induction n as [|n IH]; [unfold rsum; simpl; lra|]. rewrite rsum_S.
  pose proof (Rle_0_sqr (f n)) as Hsq. unfold Rsqr in Hsq. lra.
Qed.

Lemma setitem_spec m i j v :
  i < shape0 m → j < shape1 m →
  ∃ m', setitem m i j v = Returned m' ∧
        shape0 m' = shape0 m ∧ shape1 m' = shape1 m ∧
        ∀ a b, item m' a b = if decide (a = i ∧ b = j) then v else item m a b.
Proof.
  intros Hi Hj. unfold setitem. rewrite decide_True by done.
  eexists. split; [done|]. by simpl.
Qed.

Lemma fill_diagonal_spec v range : ∀ m,
  (∀ i, i ∈ range → i < shape0 m ∧ i < shape1 m) →
  ∃ m', fill_diagonal range m v = Returned m' ∧
        shape0 m' = shape0 m ∧ shape1 m' = shape1 m ∧
        ∀ a b, item m' a b = if decide (a = b ∧ a ∈ range) then v else item m a b.
Proof.
  induction range as [|i range IH]; intros m Hin; simpl.
  - exists m. split; [done|]. split; [done|]. split; [done|].
    intros a b. rewrite decide_False; [done|]. intros [_ H]. by apply elem_of_nil in H.
  - destruct (Hin i) as [Hi0 Hi1]; [by left|].
    destruct (setitem_spec m i i v Hi0 Hi1) as (m1 & -> & Hs0 & Hs1 & Hitem1). simpl.
    destruct (IH m1) as (m' & -> & Hs0' & Hs1' & Hitem').
    { intros j Hj. rewrite Hs0, Hs1. apply Hin. by right. }
    exists m'. split; [done|]. split; [congruence|]. split; [congruence|].
    intros a b. rewrite Hitem', Hitem1.
    destruct (decide (a = b ∧ a ∈ range)) as [[-> Hr]|Hn].
    + rewrite decide_True; [done|]. split; [done|]. by right.
    + destruct (decide (a = i ∧ b = i)) as [[-> ->]|Hn'].
      * rewrite decide_True; [done|]. split; [done|]. by left.
      * rewrite decide_False; [done|]. intros [-> Hr].
        apply elem_of_cons in Hr as [->|Hr]; [by apply Hn'|by apply Hn].
Qed.

Lemma Rltb_true x y : Rltb x y = true ↔ (x < y)%R.
Proof. unfold Rltb. destruct (Rlt_dec x y); split; (done || congruence). Qed.

Lemma Rltb_false x y : Rltb x y = false ↔ (y <= x)%R.
Proof. unfold Rltb. destruct (Rlt_dec x y); split; (done || lra). Qed.

Lemma Rltb_asym x y : Rltb x y = true → Rltb y x = false.
Proof. rewrite Rltb_true, Rltb_false. lra. Qed.

Lemma Rltb_negtrans x y z : Rltb x z = true → Rltb x y = true ∨ Rltb y z = true.
Proof.
  rewrite !Rltb_true. intros Hxz. destruct (Rlt_dec x y); [by left|right; lra].
Qed.

Lemma select_by_novelty_ranking p A k rd :
  (len (artifacts p) <=? k)%Z = false →
  ∃ scores,
    select_by_novelty p (Tensor2D A) k rd =
      Returned (if rd then IndicesAndScores (argsort_descending scores) scores
                else Indices (argsort_descending scores)) ∧
    length scores = shape0 A ∧
    ∀ i, i < shape0 A →
      scores !! i =
      Some (mean (slice_to k (list_sort (λ x : R, x) Rltb
              (<[i := (float32_max / 2)%R]>
                 (cosine_distance A i <$> seq 0 (shape0 A)))))).
Proof.
  intros Hbig. unfold select_by_novelty, to_float32. rewrite Hbig.
  cbn [normalize t mm mbind Outcome_bind shape0 shape1].
  rewrite decide_True by done. cbn [mbind Outcome_bind].
  match goal with
  | |- context [fill_diagonal ?r ?d ?v] =>
      destruct (fill_diagonal_spec v r d) as (D & -> & Hs0 & Hs1 & Hitem)
  end.
  { intros i Hi. apply elem_of_seq in Hi. simpl in *. lia. }
  simpl in Hs0, Hs1. cbn [mbind Outcome_bind].
  exists (mean <$> (slice_to k <$> sort_dim1 D)).
  split; [by destruct rd|]. split.
  { unfold sort_dim1, tolist. by rewrite !length_fmap, length_seq. }
  intros i Hi. unfold sort_dim1, tolist.
  rewrite !list_lookup_fmap, lookup_seq_lt by lia. simpl. do 4 f_equal.
  rewrite Hs1. apply list_eq. intros j.
  destruct (decide (j < shape0 A)) as [Hj|Hj].
  - rewrite list_lookup_fmap, lookup_seq_lt by done. simpl. rewrite Hitem.
    destruct (decide (i = j)) as [<-|Hne].
    + rewrite list_lookup_insert_eq by (by rewrite length_fmap, length_seq).
      rewrite decide_True; [done|]. split; [done|]. apply elem_of_seq. simpl. lia.
    + rewrite list_lookup_insert_ne by done.
      rewrite list_lookup_fmap, lookup_seq_lt by done. simpl.
      rewrite decide_False by (intros [? _]; done). done.
  - rewrite !lookup_ge_None_2; [done| |].
    + rewrite length_insert, length_fmap, length_seq. lia.
    + rewrite length_fmap, length_seq. lia.
Qed.

Lemma argsort_descending_Permutation scores :
  argsort_descending scores ≡ₚ seq 0 (length scores).
Proof. apply sorted_Permutation. Qed.


Lemma select_by_novelty_fallback p embeddings k rd :
  (len (artifacts p) <=? k)%Z = true →
  select_by_novelty p embeddings k rd =
  Returned
    (if rd then
       IndicesAndScores (seq 0 (length (artifacts p)))
         (replicate (length (artifacts p)) 0%R)
     else Indices (seq 0 (length (artifacts p)))).
Proof. intros Hsmall. unfold select_by_novelty. rewrite Hsmall. by destruct rd. Qed.

(** C3: for every store whose size is at most [k_neighbors], and whatever
    tensor is passed as embeddings, [select_by_novelty] raises nothing and
    returns the identity ordering [0..n), together with a zero score for
    every member when distances are requested. *)
Theorem novelty_small_population_identity (p : Population) (embeddings : Tensor)
    (k : Z) (rd : bool) :
  (len (artifacts p) ≤ k)%Z →
  select_by_novelty p embeddings k rd =
  Returned
    (if rd then
       IndicesAndScores (seq 0 (length (artifacts p)))
         (replicate (length (artifacts p)) 0%R)
     else Indices (seq 0 (length (artifacts p)))).
Proof. intros Hsmall. apply select_by_novelty_fallback. by apply Z.leb_le. Qed.

Lemma novelty_small_population_identity_witness :
  select_by_novelty three_artifacts (Tensor2D scenario_embeddings) 3 true =
  Returned (IndicesAndScores [0; 1; 2] [0; 0; 0]%R).
Proof.
  apply (novelty_small_population_identity three_artifacts
           (Tensor2D scenario_embeddings) 3 true).
  unfold len. simpl. lia.
Defined.

(** C10: in the fallback branch (size at most [k_neighbors], any tensor) and
    in the ranking branch (a 2-D tensor with one row per member), for every
    [k_neighbors], the call returns and the index list it returns is a
    permutation of [0..n): every index of the population appears exactly
    once. *)
Theorem novelty_indices_permutation (p : Population) (embeddings : Tensor)
    (k : Z) (rd : bool) :
  (len (artifacts p) ≤ k)%Z ∨
  (∃ A, embeddings = Tensor2D A ∧ shape0 A = length (artifacts p)) →
  ∃ idx, returned_indices (select_by_novelty p embeddings k rd) = Some idx ∧
         idx ≡ₚ seq 0 (length (artifacts p)) ∧
         NoDup idx ∧ ∀ i, i ∈ idx ↔ i < length (artifacts p).
Proof.
  intros Hcase.
  assert (∃ idx, returned_indices (select_by_novelty p embeddings k rd) = Some idx ∧
                 idx ≡ₚ seq 0 (length (artifacts p))) as (idx & Hret & Hperm).
  { destruct (len (artifacts p) <=? k)%Z eqn:Hk.
    - rewrite (select_by_novelty_fallback _ _ _ _ Hk).
      exists (seq 0 (length (artifacts p))). by destruct rd.
    - destruct Hcase as [Hsmall|(A & -> & Hrows)]; [apply Z.leb_gt in Hk; lia|].
      destruct (select_by_novelty_ranking p A k rd Hk) as (scores & -> & Hlen & _).
      exists (argsort_descending scores). split; [by destruct rd|].
      rewrite <- Hrows, <- Hlen. apply argsort_descending_Permutation. }
  exists idx. split; [done|]. split; [done|]. split.
  - rewrite Hperm. apply NoDup_seq.
  - intros i. rewrite Hperm, elem_of_seq. lia.
Qed.

Lemma novelty_indices_permutation_witness :
  ∃ idx,
    returned_indices
      (select_by_novelty three_artifacts (Tensor2D scenario_embeddings) 1 false)
    = Some idx ∧
    idx ≡ₚ seq 0 (length (artifacts three_artifacts)) ∧
    NoDup idx ∧ ∀ i, i ∈ idx ↔ i < length (artifacts three_artifacts).
Proof.
  apply (novelty_indices_permutation three_artifacts (Tensor2D scenario_embeddings)
           1 false).
  right. exists scenario_embeddings. split; reflexivity.
Defined.

(** *** Bounds on the cosine distance *)

Lemma normalize_eps_pos : (0 < normalize_eps)%R.
Proof. unfold normalize_eps. apply Rinv_0_lt_compat, pow_lt. lra. Qed.

Lemma row_norm_pos A i : (0 < row_norm A i)%R.
Proof.
  unfold row_norm. pose proof normalize_eps_pos.
  pose proof (Rmax_r (sqrt (rsum (shape1 A) (λ c, item A i c * item A i c)%R))
                normalize_eps). lra.
Qed.

Lemma row_norm_sqr A i :
  (rsum (shape1 A) (λ c, item A i c * item A i c) <= row_norm A i * row_norm A i)%R.
Proof.
  set (S := rsum (shape1 A) (λ c, item A i c * item A i c)%R).
  assert (0 <= S)%R as HS by apply rsum_squares_nonneg.
  assert (sqrt S <= row_norm A i)%R as Hle by apply Rmax_l.
  pose proof (sqrt_pos S) as Hpos.
  rewrite <- (sqrt_sqrt S HS) at 1. nra.
Qed.

Lemma normalized_row_sqr A i :
  (rsum (shape1 A)
     (λ c, item A i c / row_norm A i * (item A i c / row_norm A i)) <= 1)%R.
Proof.
  pose proof (row_norm_pos A i) as Hpos. pose proof (row_norm_sqr A i) as Hsq.
  rewrite (rsum_ext _ _ (λ c, / (row_norm A i * row_norm A i)
                               * (item A i c * item A i c))%R)
    by (intros c _; field; lra).
  rewrite rsum_scale.
  assert (0 < row_norm A i * row_norm A i)%R as Hpos2 by nra.
  apply (Rmult_le_reg_l (row_norm A i * row_norm A i)); [done|].
  rewrite <- Rmult_assoc, Rinv_r by lra. lra.
Qed.

Lemma cosine_distance_bounds A i j : (0 <= cosine_distance A i j <= 2)%R.
Proof.
  unfold cosine_distance.
  set (x := λ c, (item A i c / row_norm A i)%R).
  set (y := λ c, (item A j c / row_norm A j)%R).
  assert (rsum (shape1 A) (λ c, x c * x c) <= 1)%R as Hx
    by exact (normalized_row_sqr A i).
  assert (rsum (shape1 A) (λ c, y c * y c) <= 1)%R as Hy
    by exact (normalized_row_sqr A j).
  change (0 <= 1 - rsum (shape1 A) (λ c, x c * y c) <= 2)%R.
  assert (rsum (shape1 A) (λ c, x c * y c)
          <= rsum (shape1 A) (λ c, / 2 * (x c * x c) + / 2 * (y c * y c)))%R as Hup.
  { apply rsum_le. intros c _. generalize (x c) (y c). intros u v.
    pose proof (Rle_0_sqr (u - v)) as Hsq. unfold Rsqr in Hsq. lra. }
  assert (rsum (shape1 A) (λ c, -1 * (x c * y c))
          <= rsum (shape1 A) (λ c, / 2 * (x c * x c) + / 2 * (y c * y c)))%R as Hlow.
  { apply rsum_le. intros c _. generalize (x c) (y c). intros u v.
    pose proof (Rle_0_sqr (u + v)) as Hsq. unfold Rsqr in Hsq. lra. }
  rewrite rsum_scale in Hlow.
  rewrite rsum_plus, !rsum_scale in Hup, Hlow. lra.
Qed.

Lemma sentinel_large : (2 < float32_max / 2)%R.
Proof.
  unfold float32_max.
  assert (IZR 8 <= IZR (2 ^ 128 - 2 ^ 104))%R as H by (apply IZR_le; lia).
  lra.
Qed.

(** *** Sorting real numbers *)

#[local] Instance Rle_antisymm : AntiSymm (=) Rle.
Proof. intros x y Hxy Hyx. lra. Qed.

Lemma list_sort_R_sorted (l : list R) :
  StronglySorted Rle (list_sort (λ x : R, x) Rltb l).
Proof.
  eapply StronglySorted_weaken;
    [|apply (list_sort_ascending (λ x : R, x) Rltb Rltb_asym Rltb_negtrans)].
  intros a b Hab. by apply Rltb_false in Hab.
Qed.

Lemma list_sort_R_sentinel (l : list R) (i : nat) (M : R) :
  i < length l → Forall (λ d, (d <= M)%R) (delete i l) →
  list_sort (λ x : R, x) Rltb (<[i := M]> l)
  = list_sort (λ x : R, x) Rltb (delete i l) ++ [M].
Proof.
  intros Hi Hle. apply (StronglySorted_unique Rle).
  - apply list_sort_R_sorted.
  - apply StronglySorted_app_2.
    + intros a b Ha Hb. apply list_elem_of_singleton in Hb. subst b.
      rewrite list_sort_Permutation in Ha. rewrite Forall_forall in Hle. by apply Hle.
    + apply list_sort_R_sorted.
    + repeat constructor.
  - rewrite !list_sort_Permutation.
    rewrite insert_take_drop by done. rewrite delete_take_drop.
    rewrite <- Permutation_middle. rewrite <- (Permutation_cons_append _ M).
    done.
Qed.

Lemma select_by_novelty_without_scores p embeddings k idx scores :
  select_by_novelty p embeddings k true = Returned (IndicesAndScores idx scores) →
  select_by_novelty p embeddings k false = Returned (Indices idx).
Proof.
  unfold select_by_novelty.
  destruct (len (artifacts p) <=? k)%Z; [by intros [= <- _]|].
  destruct (normalize (to_float32 embeddings)) as [x|]; simpl; [|done].
  destruct (t x) as [y|]; simpl; [|done].
  destruct (mm x y) as [m|]; simpl; [|done].
  destruct (fill_diagonal _ _ _) as [d|]; simpl; [|done].
  by intros [= <- _].
Qed.

Lemma novelty_scores_nearest p A k :
  shape0 A = length (artifacts p) →
  (0 ≤ k < len (artifacts p))%Z →
  ∃ scores,
    select_by_novelty p (Tensor2D A) k true =
      Returned (IndicesAndScores (argsort_descending scores) scores) ∧
    length scores = length (artifacts p) ∧
    ∀ i, i < length (artifacts p) →
      scores !! i =
      Some (mean (take (Z.to_nat k) (list_sort (λ x : R, x) Rltb
              (delete i (cosine_distance A i <$> seq 0 (length (artifacts p))))))).
Proof.
  intros Hrows [Hk0 Hkn]. unfold len in Hkn.
  assert ((len (artifacts p) <=? k)%Z = false) as Hbig
    by (apply Z.leb_gt; unfold len; lia).
  destruct (select_by_novelty_ranking p A k true Hbig) as (scores & Htrue & Hlen & Hscore).
  exists scores. split; [done|]. split; [congruence|].
  intros i Hi. rewrite <- Hrows in *.
  set (row := cosine_distance A i <$> seq 0 (shape0 A)).
  assert (length row = shape0 A) as Hrow by (unfold row; by rewrite length_fmap, length_seq).
  assert (length (delete i row) = shape0 A - 1) as Hothers.
  { rewrite length_delete; [lia|]. apply lookup_lt_is_Some_2. lia. }
  rewrite Hscore by done. fold row.
  rewrite list_sort_R_sentinel; [|lia|].
  - unfold slice_to. rewrite (proj2 (Z.leb_le 0 k)) by done.
    rewrite take_app_le; [done|].
    pose proof (Permutation_length (list_sort_Permutation (λ x : R, x) Rltb (delete i row))).
    lia.
  - apply Forall_forall. intros d Hd.
    apply list_elem_of_delete_inv in Hd. unfold row in Hd.
    apply list_elem_of_fmap in Hd as (j & -> & _).
    pose proof (cosine_distance_bounds A i j). pose proof sentinel_large. lra.
Qed.

Lemma mean_of_length (k : Z) (l : list R) :
  (1 ≤ k)%Z → length l = Z.to_nat k →
  mean l = (foldr Rplus 0 l / IZR k)%R.
Proof.
  intros Hk Hlen. unfold mean. rewrite Hlen, INR_IZR_INZ, Z2Nat.id by lia. done.
Qed.

Lemma small_matrix_within_float32 (A : Matrix) :
  (∀ i, i < shape0 A →
        (rsum (shape1 A) (λ c, item A i c * item A i c) <= 4)%R) →
  within_float32 A.
Proof.
  intros Hsmall i Hi. specialize (Hsmall i Hi).
  assert (IZR 4 <= IZR (2 ^ 120))%R as Hbig by (apply IZR_le; lia). lra.
Qed.

Lemma scenario_within_float32 : within_float32 scenario_embeddings.
Proof.
  apply small_matrix_within_float32. intros i Hi. simpl in Hi.
  destruct i as [|[|[|i]]]; [unfold rsum; simpl; lra..|lia].
Qed.

(** C2: for every store of size [n], every [k_neighbors] with
    [1 <= k_neighbors < n] and every 2-D tensor of embeddings with one row
    per member whose entries are [within_float32], the novelty score of
    member [i] is the sum of the [k_neighbors] smallest cosine distances
    from row [i] to the other rows, divided by [k_neighbors]: the entry [i]
    of row [i] of the distance matrix takes no part in it.  The sentinel
    [float32_max / 2] that replaces that entry exceeds every distance to
    another row, so that it is sorted behind all [n - 1] of them. *)
Theorem novelty_excludes_self (p : Population) (A : Matrix) (k : Z) :
  shape0 A = length (artifacts p) →
  within_float32 A →
  (1 ≤ k < len (artifacts p))%Z →
  ∃ idx scores,
    select_by_novelty p (Tensor2D A) k true = Returned (IndicesAndScores idx scores) ∧
    select_by_novelty p (Tensor2D A) k false = Returned (Indices idx) ∧
    length scores = length (artifacts p) ∧
    ∀ i, i < length (artifacts p) →
      ∃ others nearest,
        others = delete i (cosine_distance A i <$> seq 0 (length (artifacts p))) ∧
        nearest ≡ₚ others ∧
        StronglySorted Rle nearest ∧
        Forall (λ d, (d < float32_max / 2)%R) others ∧
        Z.to_nat k ≤ length others ∧
        scores !! i
        = Some (foldr Rplus 0 (take (Z.to_nat k) nearest) / IZR k)%R.
Proof.
  intros Hrows _ Hk.
  destruct (novelty_scores_nearest p A k Hrows ltac:(lia))
    as (scores & Htrue & Hlen & Hscore).
  exists (argsort_descending scores), scores.
  split; [done|]. split; [by eapply select_by_novelty_without_scores|].
  split; [done|]. intros i Hi.
  set (row := cosine_distance A i <$> seq 0 (length (artifacts p))).
  assert (length (delete i row) = length (artifacts p) - 1) as Hothers.
  { rewrite length_delete.
    - unfold row. rewrite length_fmap, length_seq. lia.
    - apply lookup_lt_is_Some_2. unfold row. by rewrite length_fmap, length_seq. }
  pose proof (Permutation_length
                (list_sort_Permutation (λ x : R, x) Rltb (delete i row))) as Hsorted.
  exists (delete i row), (list_sort (λ x : R, x) Rltb (delete i row)).
  split; [done|]. split; [apply list_sort_Permutation|].
  split; [apply list_sort_R_sorted|]. unfold len in Hk. split; [|split; [lia|]].
  - apply Forall_forall. intros d Hd.
    apply list_elem_of_delete_inv in Hd. unfold row in Hd.
    apply list_elem_of_fmap in Hd as (j & -> & _).
    pose proof (cosine_distance_bounds A i j). pose proof sentinel_large. lra.
  - rewrite (Hscore i Hi). fold row. f_equal. apply mean_of_length; [lia|].
    rewrite length_take. lia.
Qed.

Lemma novelty_excludes_self_witness :
  ∃ idx scores,
    select_by_novelty three_artifacts (Tensor2D scenario_embeddings) 1 true
    = Returned (IndicesAndScores idx scores) ∧
    select_by_novelty three_artifacts (Tensor2D scenario_embeddings) 1 false
    = Returned (Indices idx) ∧
    length scores = length (artifacts three_artifacts) ∧
    ∀ i, i < length (artifacts three_artifacts) →
      ∃ others nearest,
        others = delete i (cosine_distance scenario_embeddings i
                             <$> seq 0 (length (artifacts three_artifacts))) ∧
        nearest ≡ₚ others ∧
        StronglySorted Rle nearest ∧
        Forall (λ d, (d < float32_max / 2)%R) others ∧
        Z.to_nat 1 ≤ length others ∧
        scores !! i
        = Some (foldr Rplus 0 (take (Z.to_nat 1) nearest) / IZR 1)%R.
Proof.
  apply (novelty_excludes_self three_artifacts scenario_embeddings 1).
  - reflexivity.
  - apply scenario_within_float32.
  - unfold len. simpl. lia.
Defined.

(** *** The three-embedding scenario *)











(** *** Embeddings of the wrong shape *)

Lemma mean_pair_with_sentinel d M :
  (0 <= d)%R → (d < M)%R →
  (M / 2 <= mean (slice_to 2 (list_sort (λ x : R, x) Rltb [M; d])))%R.
Proof.
  intros Hd HdM. unfold list_sort, slice_to, mean. simpl.
  apply Rltb_true in HdM. rewrite HdM. simpl. lra.
Qed.

(** C6, as the code has it: [select_by_novelty] does not validate the
    embeddings and knows no [ShapeError].  With a store of size at most
    [k_neighbors] it returns the identity ordering whatever tensor it is
    given.  Otherwise a tensor of fewer than two dimensions makes [normalize]
    raise [IndexError] and one of more than two makes [t] raise
    [RuntimeError], both before any distance is computed, while every 2-D
    tensor is accepted whatever its shape: with [m] rows the call returns a
    permutation of [0..m) and [m] scores, also when [m] is not the size of
    the store. *)
Theorem novelty_embeddings_unchecked (p : Population) (embeddings : Tensor)
    (k : Z) (rd : bool) :
  ((len (artifacts p) ≤ k)%Z →
   returned_indices (select_by_novelty p embeddings k rd)
   = Some (seq 0 (length (artifacts p)))) ∧
  ((k < len (artifacts p))%Z →
   match embeddings with
   | Tensor0D _ | Tensor1D _ =>
       select_by_novelty p embeddings k rd = Raised IndexError
   | TensorND _ => select_by_novelty p embeddings k rd = Raised RuntimeError
   | Tensor2D A =>
       ∃ idx scores,
         select_by_novelty p embeddings k rd
         = Returned (if rd then IndicesAndScores idx scores else Indices idx) ∧
         idx ≡ₚ seq 0 (shape0 A) ∧ length scores = shape0 A
   end).
Proof.
  split.
  - intros Hsmall. apply Z.leb_le in Hsmall.
    rewrite (select_by_novelty_fallback _ _ _ _ Hsmall). by destruct rd.
  - intros Hbig. apply Z.leb_gt in Hbig.
    destruct embeddings as [x|v|A|extra];
      try (unfold select_by_novelty; rewrite Hbig; reflexivity).
    destruct (select_by_novelty_ranking p A k rd Hbig) as (scores & Hsel & Hlen & _).
    exists (argsort_descending scores), scores. split; [done|]. split; [|done].
    rewrite <- Hlen. apply argsort_descending_Permutation.
Qed.

Lemma novelty_embeddings_unchecked_witness :
  select_by_novelty three_artifacts (TensorND 0) 1 true = Raised RuntimeError.
Proof.
  apply (proj2 (novelty_embeddings_unchecked three_artifacts (TensorND 0) 1 true)).
  unfold len. simpl. lia.
Defined.

(** C6, counterexample: three artifacts.  With [k_neighbors = 3] a 1-D tensor
    is answered with the identity ordering and zero scores.  With
    [k_neighbors = 2] a tensor of two rows is ranked without complaint: two
    scores come back for three members, and the first one, an average that
    includes the sentinel on the diagonal, is at least [float32_max / 4]
    although no cosine distance exceeds 2. *)
Lemma novelty_shape_counterexample :
  malformed three_artifacts (Tensor1D []) ∧
  select_by_novelty three_artifacts (Tensor1D []) 3 true
  = Returned (IndicesAndScores [0; 1; 2] [0; 0; 0]%R) ∧
  malformed three_artifacts (Tensor2D two_embeddings) ∧
  ∃ idx scores score0,
    select_by_novelty three_artifacts (Tensor2D two_embeddings) 2 true
    = Returned (IndicesAndScores idx scores) ∧
    length scores = 2 ∧
    scores !! 0 = Some score0 ∧ (float32_max / 4 <= score0)%R.
Proof.
  split; [done|]. split; [reflexivity|]. split; [simpl; lia|].
  destruct (select_by_novelty_ranking three_artifacts two_embeddings 2 true)
    as (scores & Hsel & Hlen & Hscore); [reflexivity|].
  specialize (Hscore 0 ltac:(simpl; lia)). simpl in Hscore.
  eexists _, scores, _. split; [exact Hsel|]. split; [exact Hlen|].
  split; [exact Hscore|].
  pose proof (cosine_distance_bounds two_embeddings 0 1) as Hd.
  pose proof sentinel_large as HM.
  pose proof (mean_pair_with_sentinel (cosine_distance two_embeddings 0 1)
                (float32_max / 2)%R) as Hmean.
  lra.
Qed.

(** * Further properties of the code *)

(** ** The store: batches, lookups and removals *)

Lemma add_all_spec l : ∀ p,
  add_all l p =
  (Returned tt,
   {| artifacts := artifacts p ++ l;
      id_to_artifact := foldl (λ m a, <[id a := a]> m) (id_to_artifact p) l |}).
Proof.
  induction l as [|a l IH]; intros p; simpl.
  - rewrite app_nil_r. by destruct p.
  - rewrite IH. simpl. by rewrite <- app_assoc.
Qed.

(** X1: [add_all] never raises and appends the batch to the ordered
    collection in the order given; adding a concatenation is adding the
    first part and then the second, and a batch of one is [add]. *)
Theorem add_all_appends_in_order (l1 l2 : list Artifact) (p : Population) :
  (add_all l1 p).1 = Returned tt ∧
  artifacts (add_all l1 p).2 = artifacts p ++ l1 ∧
  add_all (l1 ++ l2) p = add_all l2 (add_all l1 p).2 ∧
  ∀ a, add_all [a] p = add a p.
Proof.
  rewrite !add_all_spec. simpl. repeat split.
  by rewrite foldl_app, app_assoc.
Qed.

(** X2: after [add_all] the index answers for an id with the last artifact
    of the batch that carries this id, and with what it held before when the
    batch has none: a later insertion silently replaces an earlier one. *)
Theorem get_after_add_all_last_wins (l : list Artifact) (p : Population) (i : string) :
  get i (add_all l p).2 =
  match last (filter (λ a, id a = i) l) with
  | Some a => Some a
  | None => get i p
  end.
Proof.
  revert p. induction l as [|a l IH]; intros p; [done|].
  change (add_all (a :: l) p) with (add_all l (add a p).2). rewrite IH.
  rewrite filter_cons. unfold get. simpl.
  destruct (decide (id a = i)) as [<-|Hne].
  - rewrite last_cons. destruct (last _); [done|]. apply lookup_insert_eq.
  - destruct (last _); [done|]. by apply lookup_insert_ne.
Qed.

Lemma add_index_sound a p : index_sound p → index_sound (add a p).2.
Proof.
  intros Hp k y. simpl. destruct (decide (id a = k)) as [<-|Hne].
  - rewrite lookup_insert_eq. intros [= <-]. split; [done|].
    apply elem_of_app. right. by left.
  - rewrite lookup_insert_ne by done. intros Hy. destruct (Hp k y Hy).
    split; [done|]. apply elem_of_app. by left.
Qed.

Lemma add_all_index_sound l : ∀ p, index_sound p → index_sound (add_all l p).2.
Proof.
  induction l as [|a l IH]; intros p Hp; [done|].
  change (add_all (a :: l) p) with (add_all l (add a p).2).
  by apply IH, add_index_sound.
Qed.

Lemma remove_index_sound a p : index_sound p → index_sound (remove a p).2.
Proof.
  intros Hp. unfold remove.
  destruct (decide (is_Some (id_to_artifact p !! id a))); [|done].
  destruct (list_remove_first a (artifacts p)) as [l'|] eqn:E; [|done].
  apply list_remove_first_Some in E as (l1 & l2 & Hl & ->).
  intros k y. simpl. destruct (decide (id a = k)) as [<-|Hne].
  - by rewrite lookup_delete_eq.
  - rewrite lookup_delete_ne by done. intros Hy. destruct (Hp k y Hy) as [Hid Hin].
    split; [done|]. rewrite Hl in Hin. apply elem_of_app.
    apply elem_of_app in Hin as [Hin|Hin]; [by left|].
    apply elem_of_cons in Hin as [->|Hin]; [done|by right].
Qed.

(** X3: whatever sequence of [add], [add_all] and [remove] calls a client
    makes on a new store, duplicate ids included, the index never dangles:
    every entry is filed under the id of its record, and that record is in
    the ordered collection. *)
Theorem index_never_dangles (calls : list Call) : index_sound (run calls __init__).
Proof.
  assert (∀ p, index_sound p → index_sound (run calls p)) as Hrun.
  { induction calls as [|c calls IH]; intros p Hp; [done|]. simpl. apply IH.
    destruct c as [a|l|a]; simpl.
    - by apply (add_index_sound a p).
    - by apply add_all_index_sound.
    - by apply remove_index_sound. }
  apply Hrun. intros k y. unfold __init__. simpl. by rewrite lookup_empty.
Qed.

Lemma list_remove_first_snoc `{EqDecision A} (x : A) l :
  x ∉ l → list_remove_first x (l ++ [x]) = Some l.
Proof.
  induction l as [|y l IH]; intros Hx; simpl.
  - by rewrite decide_True.
  - apply not_elem_of_cons in Hx as [Hne Hx].
    rewrite decide_False by done. by rewrite IH.
Qed.

(** X4: removing an artifact right after adding it gives back the store as
    it was, provided the artifact was not in the collection and its id was
    not indexed. *)
Theorem remove_undoes_add (a : Artifact) (p : Population) :
  a ∉ artifacts p → id_to_artifact p !! id a = None →
  remove a (add a p).2 = (Returned tt, p).
Proof.
  intros Hnotin Hfresh. unfold remove. simpl.
  rewrite decide_True by (rewrite lookup_insert_eq; by eexists).
  rewrite list_remove_first_snoc by done.
  rewrite delete_insert_id by done. by destruct p.
Qed.

Lemma remove_undoes_add_witness :
  remove twin_a (add twin_a scenario_population).2
  = (Returned tt, scenario_population).
Proof. apply remove_undoes_add; [|reflexivity]. compute_done. Defined.

Lemma list_remove_first_split `{EqDecision A} (x : A) l l' :
  list_remove_first x l = Some l' →
  ∃ l1 l2, (x ∉ l1) ∧ l = l1 ++ x :: l2 ∧ l' = l1 ++ l2.
Proof.
  revert l'. induction l as [|y l IH]; intros l' E; simpl in E; [done|].
  destruct (decide (y = x)) as [->|Hne].
  - injection E as <-. exists [], l. split; [apply not_elem_of_nil|done].
  - destruct (list_remove_first x l) as [l0|]; simpl in E; [|done].
    injection E as <-. destruct (IH l0 eq_refl) as (l1 & l2 & Hl1 & -> & ->).
    exists (y :: l1), l2. split; [|done].
    apply not_elem_of_cons. split; [congruence|done].
Qed.

Lemma remove_cases a p :
  (id_to_artifact p !! id a = None ∧ remove a p = (Returned tt, p)) ∨
  (is_Some (id_to_artifact p !! id a) ∧ (a ∉ artifacts p) ∧
   remove a p = (Raised ValueError, p)) ∨
  (∃ l1 l2, is_Some (id_to_artifact p !! id a) ∧ (a ∉ l1) ∧
            artifacts p = l1 ++ a :: l2 ∧
            remove a p =
            (Returned tt,
             {| artifacts := l1 ++ l2;
                id_to_artifact := delete (id a) (id_to_artifact p) |})).
Proof.
  unfold remove.
  destruct (decide (is_Some (id_to_artifact p !! id a))) as [Hs|Hn].
  - right. destruct (list_remove_first a (artifacts p)) as [l'|] eqn:E.
    + right. apply list_remove_first_split in E as (l1 & l2 & Hl1 & Hl & ->).
      by exists l1, l2.
    + left. split; [done|]. split; [|done]. by apply list_remove_first_None.
  - left. split; [|done]. by apply eq_None_not_Some.
Qed.

(** X5: a second [remove] of the same artifact changes nothing, and it
    returns normally whenever the first one did: removal of what is already
    removed is a no-op. *)
Theorem remove_twice (a : Artifact) (p : Population) :
  (remove a (remove a p).2).2 = (remove a p).2 ∧
  ((remove a p).1 = Returned tt →
   remove a (remove a p).2 = (Returned tt, (remove a p).2)).
Proof.
  destruct (remove_cases a p)
    as [[Hnone Hr]|[(Hs & Hnotin & Hr)|(l1 & l2 & Hs & Hl1 & Hl & Hr)]];
    rewrite !Hr; simpl.
  - rewrite Hr. done.
  - rewrite Hr. done.
  - assert (remove a {| artifacts := l1 ++ l2;
                        id_to_artifact := delete (id a) (id_to_artifact p) |}
            = (Returned tt, {| artifacts := l1 ++ l2;
                 id_to_artifact := delete (id a) (id_to_artifact p) |})) as ->; [|done].
    unfold remove. simpl. rewrite decide_False; [done|].
    rewrite lookup_delete_eq. by intros [? ?].
Qed.

Lemma remove_twice_witness :
  remove twin_a (remove twin_a (add twin_a __init__).2).2
  = (Returned tt, (remove twin_a (add twin_a __init__).2).2).
Proof. apply (remove_twice twin_a (add twin_a __init__).2). reflexivity. Defined.

(** X6: [remove] raises exactly when the id of the artifact is indexed while
    the artifact itself is not in the collection; the exception is
    [ValueError], from [list.remove], and the store is left untouched.  In a
    consistent store this is the case exactly when the store holds another
    object under the same id. *)
Theorem remove_raises_iff (a : Artifact) (p : Population) :
  ((remove a p).1 = Raised ValueError ↔
   is_Some (id_to_artifact p !! id a) ∧ (a ∉ artifacts p)) ∧
  (∀ e, (remove a p).1 = Raised e → e = ValueError ∧ (remove a p).2 = p) ∧
  (consistent p →
   ((remove a p).1 = Raised ValueError ↔ ∃ b, get (id a) p = Some b ∧ b ≠ a)).
Proof.
  assert ((remove a p).1 = Raised ValueError ↔
          is_Some (id_to_artifact p !! id a) ∧ (a ∉ artifacts p)) as Hiff.
  { destruct (remove_cases a p)
      as [[Hnone Hr]|[(Hs & Hnotin & Hr)|(l1 & l2 & Hs & Hl1 & Hl & Hr)]];
      rewrite Hr; simpl.
    - split; [done|]. intros [[b Hb] _]. congruence.
    - done.
    - split; [done|]. intros [_ Hnotin]. exfalso. apply Hnotin. rewrite Hl.
      apply elem_of_app. right. by left. }
  split; [exact Hiff|]. split.
  - intros e. destruct (remove_cases a p)
      as [[Hnone Hr]|[(Hs & Hnotin & Hr)|(l1 & l2 & Hs & Hl1 & Hl & Hr)]];
      rewrite Hr; simpl; try done. by intros [= <-].
  - intros [Hnd Hix]. rewrite Hiff. unfold get. split.
    + intros [[b Hb] Hnotin]. exists b. split; [done|]. intros ->.
      apply Hnotin. by apply (Hix (id a) a).
    + intros (b & Hb & Hne). split; [by eexists|]. intros Hin.
      assert (id_to_artifact p !! id a = Some a) as Ha by (by apply Hix).
      congruence.
Qed.

Lemma remove_raises_iff_witness :
  (remove twin_b (add twin_a __init__).2).1 = Raised ValueError ↔
  ∃ b, get (id twin_b) (add twin_a __init__).2 = Some b ∧ b ≠ twin_b.
Proof.
  apply (remove_raises_iff twin_b (add twin_a __init__).2).
  apply (add_fresh_consistent twin_a __init__ consistent_init). reflexivity.
Defined.

Lemma filter_other_id `{EqDecision A} (x : A) (l : list A) :
  x ∉ l → filter (λ y, y ≠ x) l = l.
Proof.
  induction l as [|y l IH]; intros Hx; [done|].
  apply not_elem_of_cons in Hx as [Hne Hx].
  rewrite filter_cons, decide_True by congruence. by rewrite IH.
Qed.

(** X7: in a consistent store, removing a member returns normally, takes the
    member, and nothing else, out of the ordered collection while keeping
    the order of the others, and drops its index entry: the collection
    shrinks by one, the id is no longer found, and the store stays
    consistent. *)
Theorem remove_member (a : Artifact) (p : Population) :
  consistent p → a ∈ artifacts p →
  remove a p =
    (Returned tt,
     {| artifacts := filter (λ x, x ≠ a) (artifacts p);
        id_to_artifact := delete (id a) (id_to_artifact p) |}) ∧
  S (length (artifacts (remove a p).2)) = length (artifacts p) ∧
  get (id a) (remove a p).2 = None ∧
  (∀ i, i ≠ id a → get i (remove a p).2 = get i p) ∧
  consistent (remove a p).2.
Proof.
  intros Hc Hin. pose proof (remove_consistent a p Hc) as Hc'.
  destruct Hc as [Hnd Hix].
  destruct (remove_cases a p)
    as [[Hnone Hr]|[(Hs & Hnotin & Hr)|(l1 & l2 & Hs & Hl1 & Hl & Hr)]].
  - assert (id_to_artifact p !! id a = Some a) by (by apply Hix). congruence.
  - done.
  - assert (a ∉ l2) as Hl2.
    { apply NoDup_fmap_1 in Hnd. rewrite Hl in Hnd.
      apply NoDup_app in Hnd as (_ & _ & Hnd). by apply NoDup_cons in Hnd as [? _]. }
    assert (filter (λ x, x ≠ a) (artifacts p) = l1 ++ l2) as Hfilter.
    { rewrite Hl, filter_app, filter_cons, decide_False by (intros ?; done).
      by rewrite !filter_other_id. }
    rewrite Hfilter. rewrite Hr in Hc' |- *. simpl.
    split; [done|]. split; [|split; [|split; [|exact Hc']]].
    + rewrite Hl, !length_app. simpl. lia.
    + unfold get. simpl. apply lookup_delete_eq.
    + intros i Hi. unfold get. simpl. apply lookup_delete_ne. congruence.
Qed.

Lemma remove_member_witness :
  S (length (artifacts (remove twin_a (add twin_a __init__).2).2))
  = length (artifacts (add twin_a __init__).2).
Proof.
  apply (remove_member twin_a (add twin_a __init__).2).
  - apply (add_fresh_consistent twin_a __init__ consistent_init). reflexivity.
  - simpl. by left.
Defined.

(** ** Selection: edge cases of [get_random] and [get_best] *)

(** X8: a negative count makes [get_random] raise [ValueError], the error of
    [np.random.choice], for every store, the empty one included. *)
Theorem get_random_negative_count_raises (rng : list nat) (count : Z) (p : Population) :
  (count < 0)%Z → get_random rng count p = Raised ValueError.
Proof.
  intros Hneg. unfold get_random, len. rewrite Z.geb_leb.
  rewrite (proj2 (Z.leb_gt _ _)) by lia.
  unfold np_random_choice. by rewrite (proj2 (Z.ltb_lt _ _)).
Qed.

Lemma get_random_negative_count_raises_witness :
  get_random [3] (-2) __init__ = Raised ValueError.
Proof. apply get_random_negative_count_raises. lia. Defined.

Lemma sorted_length {A K} (key : A → K) (lt : K → K → bool) reverse l :
  length (sorted key lt reverse l) = length l.
Proof. apply Permutation_length, sorted_Permutation. Qed.

(** X9: a negative count is not rejected by [get_best]: the slice
    [[:count]] then drops the [-count] lowest-ranked records, so that
    [get_best(count)] is [get_best(size + count)], and it is empty once
    [-count] reaches the size of the store. *)
Theorem get_best_negative_count_drops_lowest (count : Z) (p : Population) :
  (count < 0)%Z →
  get_best count p = get_best (Z.max 0 (len (artifacts p) + count)) p ∧
  length (get_best count p) = Z.to_nat (len (artifacts p) + count).
Proof.
  intros Hneg. unfold get_best, slice_to.
  rewrite (proj2 (Z.leb_gt 0 count)) by done.
  rewrite (proj2 (Z.leb_le 0 (Z.max 0 _))) by lia.
  unfold len. rewrite sorted_length. split.
  - f_equal. lia.
  - rewrite length_take, sorted_length. lia.
Qed.

Lemma get_best_negative_count_drops_lowest_witness :
  length (get_best (-2) scenario_population) = 3.
Proof.
  apply (get_best_negative_count_drops_lowest (-2) scenario_population). lia.
Defined.

(** X10: the answers of [get_best] are nested: for [0 <= c1 <= c2],
    [get_best(c1)] is the first [c1] records of [get_best(c2)]. *)
Theorem get_best_nested (c1 c2 : Z) (p : Population) :
  (0 ≤ c1 ≤ c2)%Z →
  get_best c1 p = take (Z.to_nat c1) (get_best c2 p) ∧
  get_best c1 p `prefix_of` get_best c2 p.
Proof.
  intros [H1 H12]. unfold get_best, slice_to.
  rewrite !(proj2 (Z.leb_le 0 _)) by lia.
  assert (take (Z.to_nat c1) (sorted fitness_key key_lt true (artifacts p))
          = take (Z.to_nat c1)
              (take (Z.to_nat c2) (sorted fitness_key key_lt true (artifacts p))))
    as Heq by (rewrite take_take; f_equal; lia).
  split; [exact Heq|]. rewrite Heq. apply prefix_take.
Qed.

Lemma get_best_nested_witness :
  get_best 1 scenario_population = take (Z.to_nat 1) (get_best 3 scenario_population).
Proof. apply (get_best_nested 1 3 scenario_population). lia. Defined.

Lemma insort_last {A K} (key : A → K) (lt : K → K → bool) x l :
  (∀ y, y ∈ l → lt (key x) (key y) = false) → insort key lt x l = l ++ [x].
Proof.
  induction l as [|y l IH]; intros Hl; simpl; [done|].
  rewrite (Hl y) by (by left). rewrite IH; [done|].
  intros z Hz. apply Hl. by right.
Qed.

Lemma foldl_insort_ascending_id {A K} (key : A → K) (lt : K → K → bool) l :
  ∀ acc, StronglySorted (ascending key lt) (acc ++ l) →
         foldl (λ acc x, insort key lt x acc) acc l = acc ++ l.
Proof.
  induction l as [|x l IH]; intros acc Hs; simpl; [by rewrite app_nil_r|].
  rewrite insort_last.
  - rewrite IH; rewrite <- app_assoc; done.
  - intros y Hy. apply (StronglySorted_app_1_elem_of _ _ _ y x Hs Hy). by left.
Qed.

Lemma sorted_descending_id {A K} (key : A → K) (lt : K → K → bool) l :
  StronglySorted (descending key lt) l → sorted key lt true l = l.
Proof.
  intros Hs. unfold sorted, list_sort.
  rewrite (foldl_insort_ascending_id key lt (rev l) []).
  - apply rev_involutive.
  - simpl. by apply (StronglySorted_rev (descending key lt)) in Hs.
Qed.

(** X11: when the ordered collection is already in descending order of
    fitness (an unset fitness counting as negative infinity), [get_best]
    returns its first [count] records as they stand; this is the case in
    particular as long as no artifact has a fitness. *)
Theorem get_best_presorted (count : Z) (p : Population) :
  StronglySorted (λ a b, key_le (fitness_key b) (fitness_key a)) (artifacts p) →
  (0 ≤ count)%Z →
  get_best count p = take (Z.to_nat count) (artifacts p).
Proof.
  intros Hs Hcount. unfold get_best, slice_to.
  rewrite (proj2 (Z.leb_le 0 count)) by done.
  rewrite sorted_descending_id; [done|].
  eapply StronglySorted_weaken; [|exact Hs].
  intros a b Hab. by apply key_lt_false.
Qed.

Lemma get_best_presorted_witness :
  get_best 2 three_artifacts = take (Z.to_nat 2) (artifacts three_artifacts).
Proof.
  apply (get_best_presorted 2 three_artifacts); [|lia].
  simpl. repeat constructor.
Defined.

(** X12: when no two members have the same fitness (and at most one has
    none), the answer of [get_best] does not depend on the order of
    insertion: two stores holding the same records in any order give the
    same answer for every count. *)
Theorem get_best_order_independent (count : Z) (p q : Population) :
  artifacts p ≡ₚ artifacts q →
  (∀ a b, a ∈ artifacts p → b ∈ artifacts p →
          key_eq (fitness_key a) (fitness_key b) → a = b) →
  get_best count p = get_best count q.
Proof.
  intros Hperm Hdistinct. unfold get_best. f_equal.
  apply (StronglySorted_unique_strong
           (λ a b, key_le (fitness_key b) (fitness_key a))).
  - intros a b Ha Hb Hab Hba.
    rewrite sorted_Permutation in Ha. rewrite sorted_Permutation, <- Hperm in Hb.
    apply Hdistinct; [done..|]. by split.
  - eapply StronglySorted_weaken;
      [|apply (sorted_reverse_descending fitness_key key_lt key_lt_asym key_lt_negtrans)].
    intros a b Hab. by apply key_lt_false.
  - eapply StronglySorted_weaken;
      [|apply (sorted_reverse_descending fitness_key key_lt key_lt_asym key_lt_negtrans)].
    intros a b Hab. by apply key_lt_false.
  - by rewrite !sorted_Permutation.
Qed.

Lemma get_best_order_independent_witness :
  get_best 2 scenario_population
  = get_best 2 (add_all (rev scenario_artifacts) __init__).2.
Proof.
  apply (get_best_order_independent 2 scenario_population
           (add_all (rev scenario_artifacts) __init__).2).
  - simpl. apply Permutation_rev.
  - intros a b Ha Hb. simpl in Ha, Hb.
    repeat (apply elem_of_cons in Ha as [->|Ha]);
      try (by apply elem_of_nil in Ha);
      repeat (apply elem_of_cons in Hb as [->|Hb]);
      try (by apply elem_of_nil in Hb);
      try done; intros [H1 H2]; vm_compute in H1, H2; try done;
      exfalso; (by apply H1) || (by apply H2).
Defined.

(** ** Novelty scores: range and special embeddings *)

Lemma sum_bounds (a b : R) (l : list R) :
  Forall (λ d, (a <= d <= b)%R) l →
  (INR (length l) * a <= foldr Rplus 0 l <= INR (length l) * b)%R.
Proof.
  induction 1 as [|d l Hd Hl IH].
  - simpl. lra.
  - change (length (d :: l)) with (S (length l)). rewrite S_INR. simpl. lra.
Qed.

Lemma mean_bounds (a b : R) (l : list R) :
  l ≠ [] → Forall (λ d, (a <= d <= b)%R) l → (a <= mean l <= b)%R.
Proof.
  intros Hne Hl. pose proof (sum_bounds a b l Hl) as Hsum. unfold mean, Rdiv.
  assert (0 < INR (length l))%R as Hpos.
  { apply lt_0_INR. destruct l; [done|simpl; lia]. }
  revert Hsum Hpos. generalize (foldr Rplus 0%R l) (INR (length l)).
  intros s n Hsum Hpos.
  pose proof (Rinv_0_lt_compat n Hpos) as Hinv.
  replace a with (n * a * / n)%R by (field; lra).
  replace b with (n * b * / n)%R by (field; lra).
  split; apply Rmult_le_compat_r; lra.
Qed.

Lemma nearest_nonempty (k : Z) (others : list R) :
  (1 ≤ k)%Z → others ≠ [] →
  take (Z.to_nat k) (list_sort (λ x : R, x) Rltb others) ≠ [].
Proof.
  intros Hk Hne Hnil. apply (f_equal length) in Hnil.
  rewrite length_take in Hnil. simpl in Hnil.
  pose proof (Permutation_length (list_sort_Permutation (λ x : R, x) Rltb others)) as Hlen.
  destruct others; [done|]. simpl in Hlen. lia.
Qed.

Lemma nearest_Forall (P : R → Prop) (n : nat) (others : list R) :
  Forall P others → Forall P (take n (list_sort (λ x : R, x) Rltb others)).
Proof.
  intros HP. apply Forall_take.
  by rewrite (list_sort_Permutation (λ x : R, x) Rltb others).
Qed.

Lemma others_nonempty (A : Matrix) (i n : nat) :
  i < n → 2 ≤ n → delete i (cosine_distance A i <$> seq 0 n) ≠ [].
Proof.
  intros Hi Hn Hnil. apply (f_equal length) in Hnil.
  rewrite length_delete, length_fmap, length_seq in Hnil.
  - simpl in Hnil. lia.
  - apply lookup_lt_is_Some_2. rewrite length_fmap, length_seq. lia.
Qed.

(** X13: with one row per member, entries [within_float32] and
    [1 <= k_neighbors < size], every novelty score lies strictly between -1
    and 3.  Exact arithmetic puts a mean of cosine distances between 0 and
    2; the margin of one on either side leaves room for the rounding of
    float32.  The sentinel on the diagonal, of the order of [10^38], never
    enters a score. *)
Theorem novelty_scores_in_range (p : Population) (A : Matrix) (k : Z) :
  shape0 A = length (artifacts p) →
  within_float32 A →
  (1 ≤ k < len (artifacts p))%Z →
  ∃ idx scores,
    select_by_novelty p (Tensor2D A) k true = Returned (IndicesAndScores idx scores) ∧
    length scores = length (artifacts p) ∧
    Forall (λ s, (-1 < s < 3)%R ∧ (s < float32_max / 2)%R) scores.
Proof.
  intros Hrows _ Hk.
  destruct (novelty_scores_nearest p A k Hrows ltac:(lia)) as (scores & Hsel & Hlen & Hscore).
  exists (argsort_descending scores), scores. split; [done|]. split; [done|].
  apply Forall_lookup. intros i s Hs.
  assert (i < length (artifacts p)) as Hi by (rewrite <- Hlen; by eapply lookup_lt_Some).
  rewrite (Hscore i Hi) in Hs. injection Hs as <-. unfold len in Hk.
  match goal with |- (_ < mean ?l < _)%R ∧ _ => assert (0 <= mean l <= 2)%R as Hm end.
  { apply mean_bounds.
    - apply nearest_nonempty; [lia|]. apply others_nonempty; lia.
    - apply nearest_Forall, Forall_forall. intros d Hd.
      apply list_elem_of_delete_inv, list_elem_of_fmap in Hd as (j & -> & _).
      apply cosine_distance_bounds. }
  pose proof sentinel_large. lra.
Qed.

Lemma novelty_scores_in_range_witness :
  ∃ idx scores,
    select_by_novelty three_artifacts (Tensor2D scenario_embeddings) 2 true
    = Returned (IndicesAndScores idx scores) ∧
    length scores = length (artifacts three_artifacts) ∧
    Forall (λ s, (-1 < s < 3)%R ∧ (s < float32_max / 2)%R) scores.
Proof.
  apply (novelty_scores_in_range three_artifacts scenario_embeddings 2).
  - reflexivity.
  - apply scenario_within_float32.
  - unfold len. simpl. lia.
Defined.

Lemma rsum_zero n f : (∀ c, c < n → f c = 0%R) → rsum n f = 0%R.
Proof.
  induction n as [|n IH]; intros Hf; [done|].
  rewrite rsum_S, Hf by lia. rewrite IH; [lra|]. intros c Hc. apply Hf. lia.
Qed.

Lemma cosine_distance_zero_row (A : Matrix) (i j : nat) :
  (∀ c, c < shape1 A → item A i c = 0%R) → cosine_distance A i j = 1%R.
Proof.
  intros Hzero. unfold cosine_distance. rewrite rsum_zero; [lra|].
  intros c Hc. rewrite Hzero by done. unfold Rdiv. lra.
Qed.

(** X14: an all-zero embedding row does not break the scoring: the divisor
    of [normalize] is clamped at [eps], the row stays zero, its cosine
    distance to every row is exactly 1, and so is its novelty score (one
    row per member, entries [within_float32], [1 <= k_neighbors < size]).
    No rounding is involved: the products with a zero row, their sum, one
    minus that sum and the mean of ones are exact in float32 as well. *)
Theorem novelty_zero_embedding_scores_one (p : Population) (A : Matrix) (k : Z)
    (i : nat) :
  shape0 A = length (artifacts p) →
  within_float32 A →
  (1 ≤ k < len (artifacts p))%Z →
  i < length (artifacts p) →
  (∀ c, c < shape1 A → item A i c = 0%R) →
  ∃ idx scores,
    select_by_novelty p (Tensor2D A) k true = Returned (IndicesAndScores idx scores) ∧
    scores !! i = Some 1%R.
Proof.
  intros Hrows _ Hk Hi Hzero.
  destruct (novelty_scores_nearest p A k Hrows ltac:(lia)) as (scores & Hsel & Hlen & Hscore).
  exists (argsort_descending scores), scores. split; [done|].
  rewrite (Hscore i Hi). f_equal. unfold len in Hk.
  match goal with |- mean ?l = _ => assert (1 <= mean l <= 1)%R; [|lra] end.
  apply mean_bounds.
  - apply nearest_nonempty; [lia|]. apply others_nonempty; lia.
  - apply nearest_Forall, Forall_forall. intros d Hd.
    apply list_elem_of_delete_inv, list_elem_of_fmap in Hd as (j & -> & _).
    rewrite cosine_distance_zero_row by done. lra.
Qed.

Lemma novelty_zero_embedding_scores_one_witness :
  ∃ idx scores,
    select_by_novelty three_artifacts (Tensor2D zero_row_embeddings) 1 true
    = Returned (IndicesAndScores idx scores) ∧
    scores !! 0 = Some 1%R.
Proof.
  apply (novelty_zero_embedding_scores_one three_artifacts zero_row_embeddings 1 0).
  - reflexivity.
  - apply small_matrix_within_float32. intros i Hi. simpl in Hi.
    destruct i as [|[|[|i]]]; [unfold rsum; simpl; lra..|lia].
  - unfold len. simpl. lia.
  - simpl. lia.
  - intros c Hc. simpl in Hc. destruct c as [|[|c]]; [reflexivity..|lia].
Defined.

(** X16: a negative [k_neighbors] is not rejected and never takes the
    small-population branch, whatever the size of the store.  For a 2-D
    tensor of [m] rows with entries [within_float32] and
    [-m < k_neighbors < 0], the slice [[:k]] drops the [-k] largest entries
    of each sorted row, the sentinel first, so that the score of row [i] is
    the mean of its [m + k >= 1] smallest distances to other rows; with
    [k_neighbors = -1] that is the mean distance to all of them. *)
Theorem novelty_negative_k_neighbors (p : Population) (A : Matrix) (k : Z) :
  within_float32 A →
  (- Z.of_nat (shape0 A) < k < 0)%Z →
  ∃ idx scores,
    select_by_novelty p (Tensor2D A) k true = Returned (IndicesAndScores idx scores) ∧
    idx ≡ₚ seq 0 (shape0 A) ∧
    length scores = shape0 A ∧
    ∀ i, i < shape0 A →
      scores !! i =
      Some (foldr Rplus 0
              (take (shape0 A - Z.to_nat (- k))
                 (list_sort (λ x : R, x) Rltb
                    (delete i (cosine_distance A i <$> seq 0 (shape0 A)))))
            / IZR (Z.of_nat (shape0 A) + k))%R.
Proof.
  intros _ [Hlow Hneg].
  assert ((len (artifacts p) <=? k)%Z = false) as Hbig
    by (apply Z.leb_gt; unfold len; lia).
  destruct (select_by_novelty_ranking p A k true Hbig) as (scores & Hsel & Hlen & Hscore).
  exists (argsort_descending scores), scores. split; [done|].
  split; [rewrite <- Hlen; apply argsort_descending_Permutation|]. split; [done|].
  intros i Hi. rewrite (Hscore i Hi).
  set (row := cosine_distance A i <$> seq 0 (shape0 A)).
  assert (length row = shape0 A) as Hrow by (unfold row; by rewrite length_fmap, length_seq).
  assert (length (delete i row) = shape0 A - 1) as Hothers.
  { rewrite length_delete; [lia|]. apply lookup_lt_is_Some_2. lia. }
  pose proof (Permutation_length
                (list_sort_Permutation (λ x : R, x) Rltb (delete i row))) as Hsorted.
  rewrite list_sort_R_sentinel; [|lia|].
  - unfold slice_to, len. rewrite (proj2 (Z.leb_gt 0 k)) by done.
    rewrite length_app. simpl. rewrite take_app_le by lia. f_equal.
    replace (Z.to_nat (Z.of_nat (length (list_sort (λ x : R, x) Rltb (delete i row))
                                 + 1) + k))
      with (shape0 A - Z.to_nat (- k)) by lia.
    apply mean_of_length; [lia|]. rewrite length_take. lia.
  - apply Forall_forall. intros d Hd.
    apply list_elem_of_delete_inv in Hd. unfold row in Hd.
    apply list_elem_of_fmap in Hd as (j & -> & _).
    pose proof (cosine_distance_bounds A i j). pose proof sentinel_large. lra.
Qed.

Lemma novelty_negative_k_neighbors_witness :
  ∃ idx scores,
    select_by_novelty __init__ (Tensor2D scenario_embeddings) (-1) true
    = Returned (IndicesAndScores idx scores) ∧
    idx ≡ₚ seq 0 (shape0 scenario_embeddings) ∧
    length scores = shape0 scenario_embeddings ∧
    ∀ i, i < shape0 scenario_embeddings →
      scores !! i =
      Some (foldr Rplus 0
              (take (shape0 scenario_embeddings - Z.to_nat (- -1))
                 (list_sort (λ x : R, x) Rltb
                    (delete i (cosine_distance scenario_embeddings i
                                 <$> seq 0 (shape0 scenario_embeddings)))))
            / IZR (Z.of_nat (shape0 scenario_embeddings) + -1))%R.
Proof.
  apply (novelty_negative_k_neighbors __init__ scenario_embeddings (-1)).
  - apply scenario_within_float32.
  - simpl. lia.
Defined.

(** ** The ledger grows by whole entries *)

Lemma checkpoints_ledger_prefix output_dir calls : ∀ fs,
  ledger fs output_dir `prefix_of` ledger (checkpoints output_dir calls fs).2 output_dir ∧
  length (ledger (checkpoints output_dir calls fs).2 output_dir)
  = length (ledger fs output_dir)
    + length (filter returned (checkpoints output_dir calls fs).1).
Proof.
  induction calls as [|c calls IH]; intros fs.
  - simpl. split; [done|lia].
  - cbn [checkpoints fst snd]. destruct (IH (save_call output_dir c fs).2) as [Hpre Hlen].
    rewrite filter_cons.
    destruct (decide (returned (save_call output_dir c fs).1)) as [Hc|Hc].
    + destruct (save_call_returned c output_dir fs Hc) as [_ Hl].
      rewrite Hl in Hpre, Hlen. split.
      * by eapply prefix_app_l.
      * rewrite Hlen, length_app. simpl. lia.
    + rewrite (save_call_raised c output_dir fs Hc) in Hpre, Hlen |- *. done.
Qed.

(** X17: on a ledger made of whole lines, a [save] call either raises and
    leaves every file as it was, which is always the case for the
    empty [output_dir], where [os.makedirs] raises [FileNotFoundError]; or
    it returns the path of the ledger and appends exactly one entry behind
    the lines that are there.  After any run of calls the earlier lines are
    therefore still in place, and the ledger has grown by one entry for
    each call that returned. *)
Theorem ledger_grows_by_returned_saves (output_dir : string) (calls : list SaveCall)
    (fs : FileSystem) :
  (∀ c, (save_call "" c fs) = (IoRaised FileNotFoundError, fs)) ∧
  (∀ c, ¬ returned (save_call output_dir c fs).1 →
        (save_call output_dir c fs).2 = fs) ∧
  (∀ c, returned (save_call output_dir c fs).1 →
        (save_call output_dir c fs).1
        = IoReturned (os_path_join output_dir "population_data.jsonl") ∧
        ledger (save_call output_dir c fs).2 output_dir
        = ledger fs output_dir ++ [written_by c]) ∧
  ledger fs output_dir `prefix_of` ledger (checkpoints output_dir calls fs).2 output_dir ∧
  length (ledger (checkpoints output_dir calls fs).2 output_dir)
  = length (ledger fs output_dir)
    + length (filter returned (checkpoints output_dir calls fs).1).
Proof.
  split; [done|]. split; [intros c; apply save_call_raised|].
  split; [intros c; apply save_call_returned|].
  apply checkpoints_ledger_prefix.
Qed.

Lemma ledger_grows_by_returned_saves_witness :
  length
    (ledger
       (checkpoints "out"
          [{| call_self := __init__; call_generation := 0; call_now := "t0";
              call_refusal := None |};
           {| call_self := __init__; call_generation := 1; call_now := "t1";
              call_refusal := Some OtherIoError |};
           {| call_self := scenario_population; call_generation := 2;
              call_now := "t2"; call_refusal := None |}] ∅).2 "out") = 0 + 2.
Proof.
  exact (proj2 (proj2 (proj2 (proj2
    (ledger_grows_by_returned_saves "out"
       [{| call_self := __init__; call_generation := 0; call_now := "t0";
           call_refusal := None |};
        {| call_self := __init__; call_generation := 1; call_now := "t1";
           call_refusal := Some OtherIoError |};
        {| call_self := scenario_population; call_generation := 2;
           call_now := "t2"; call_refusal := None |}] ∅))))).
Defined.

(** ** Artifact objects: [to_dict] and [from_dict] *)

Section artifact_objects.
Context {TensorT : Type}.
Context (tolist : TensorT → PyValue) (torch_tensor : PyValue → option TensorT).

(** X18: [ShaderArtifact.from_dict(a.to_dict())] rebuilds every attribute
    of [a], whatever values they hold, provided the id of [a] is truthy and
    [tolist] never yields [None]: the result is a [ShaderArtifact] with the
    id, idea, genome, phenome, prompt, fitness, creation time and metadata
    of [a], and with the embedding [torch.tensor(e.tolist())] for an
    embedding [e] (the call fails when torch rejects that list).  For a
    [ShaderArtifact] whose embedding survives the passage through a list,
    the result is [a] itself. *)
Theorem from_dict_to_dict (a : Obj.t TensorT) (uuid4 : string) (t_init t_default : Q) :
  Obj.truthy (Obj.id a) = true →
  (∀ e, tolist e ≠ PNone) →
  Obj.from_dict torch_tensor ClsShaderArtifact (Obj.to_dict tolist a)
    uuid4 t_init t_default
  = match Obj.embedding a with
    | None => Done (Obj.rebuilt a None)
    | Some e =>
        match torch_tensor (tolist e) with
        | Some e' => Done (Obj.rebuilt a (Some e'))
        | None => Failed TensorRejected
        end
    end ∧
  (Obj.__class__ a = ClsShaderArtifact →
   (∀ e, Obj.embedding a = Some e → torch_tensor (tolist e) = Some e) →
   Obj.from_dict torch_tensor ClsShaderArtifact (Obj.to_dict tolist a)
     uuid4 t_init t_default
   = Done a).
Proof.
  intros Hid Htolist.
  assert (Obj.from_dict torch_tensor ClsShaderArtifact (Obj.to_dict tolist a)
            uuid4 t_init t_default
          = match Obj.embedding a with
            | None => Done (Obj.rebuilt a None)
            | Some e =>
                match torch_tensor (tolist e) with
                | Some e' => Done (Obj.rebuilt a (Some e'))
                | None => Failed TensorRejected
                end
            end) as Hgen.
  { unfold Obj.from_dict, Obj.to_dict, Obj.get, Obj.rebuilt. simpl.
    unfold Obj.or_. rewrite Hid.
    destruct (Obj.embedding a) as [e|]; [|done].
    specialize (Htolist e). destruct (tolist e); try done;
      by destruct (torch_tensor _). }
  split; [exact Hgen|]. intros Hcls Hround. rewrite Hgen.
  destruct a as [cls i idea genome phenome prompt emb fit ct md].
  simpl in *. subst cls. destruct emb as [e|]; [|done].
  by rewrite (Hround e eq_refl).
Qed.

(** X19: what [from_dict] does with incomplete data.  On the base class it
    raises [NotImplementedError]; on [ShaderArtifact] a dictionary without
    the key ["id"] raises [KeyError], and one that has the id but none of
    the other keys gives an artifact whose idea, genome, phenome, prompt,
    fitness and embedding are [None], whose metadata is the empty dict and
    whose creation time is the clock reading taken by [from_dict]. *)
Theorem from_dict_incomplete (data : list (string * PyValue)) (uuid4 : string)
    (t_init t_default : Q) :
  Obj.from_dict torch_tensor ClsArtifact data uuid4 t_init t_default
  = Failed NotImplementedError ∧
  (Obj.getitem "id" data = None →
   Obj.from_dict torch_tensor ClsShaderArtifact data uuid4 t_init t_default
   = Failed (KeyError "id")) ∧
  (∀ i, Obj.getitem "id" data = Some i →
        Forall (λ k, Obj.getitem k data = None)
          ["idea"; "genome"; "phenome"; "prompt"; "fitness"; "creation_time";
           "metadata"; "embedding"] →
        Obj.from_dict torch_tensor ClsShaderArtifact data uuid4 t_init t_default
        = Done (Obj.__init__ ClsShaderArtifact i uuid4 t_default)).
Proof.
  split; [done|]. split.
  - intros Hid. unfold Obj.from_dict. by rewrite Hid.
  - intros i Hid Hmissing.
    repeat (apply Forall_cons in Hmissing as [? Hmissing]).
    unfold Obj.from_dict, Obj.get. rewrite Hid.
    repeat match goal with H : Obj.getitem _ data = None |- _ => rewrite H; clear H end.
    done.
Qed.

(** X20: an artifact never has a falsy id, as long as the uuid is not the
    empty string: [__init__] keeps a truthy id and replaces [None], [""] and
    every other falsy value by the fresh uuid, so that every artifact
    [from_dict] returns has a truthy id; and it is a [ShaderArtifact]
    whatever the ["type"] entry of the data says. *)
Theorem artifact_id_truthy (uuid4 : string) :
  uuid4 ≠ EmptyString →
  (∀ cls i t_init,
     Obj.truthy (Obj.id (@Obj.__init__ TensorT cls i uuid4 t_init)) = true ∧
     (Obj.truthy i = true → Obj.id (@Obj.__init__ TensorT cls i uuid4 t_init) = i) ∧
     (Obj.truthy i = false →
      Obj.id (@Obj.__init__ TensorT cls i uuid4 t_init) = PStr uuid4)) ∧
  (∀ cls data t_init t_default a,
     Obj.from_dict torch_tensor cls data uuid4 t_init t_default = Done a →
     Obj.truthy (Obj.id a) = true ∧ Obj.__class__ a = ClsShaderArtifact).
Proof.
  intros Huuid.
  assert (∀ i, Obj.truthy (Obj.or_ i (PStr uuid4)) = true) as Hor.
  { intros i. unfold Obj.or_. destruct (Obj.truthy i) eqn:Hi; [done|].
    simpl. by rewrite decide_False. }
  split.
  - intros cls i t_init. simpl. split; [apply Hor|]. unfold Obj.or_.
    split; intros ->; done.
  - intros cls data t_init t_default a. unfold Obj.from_dict.
    destruct cls; [done|]. destruct (Obj.getitem "id" data) as [i|]; [|done].
    destruct (Obj.get "embedding" PNone data);
      try destruct (torch_tensor _); intros [= <-]; simpl; (split; [apply Hor|done]).
Qed.

End artifact_objects.

Lemma vector_round_trip (v : list Q) : Obj.vector_of (Obj.vector_tolist v) = Some v.
Proof.
  unfold Obj.vector_of, Obj.vector_tolist.
  induction v as [|x v IH]; [done|].
  rewrite fmap_cons. cbn [Obj.floats_of]. by rewrite IH.
Qed.

Lemma from_dict_to_dict_witness :
  Obj.from_dict Obj.vector_of ClsShaderArtifact
    (Obj.to_dict Obj.vector_tolist Obj.sample) "u" 1 2
  = Done Obj.sample.
Proof.
  apply (from_dict_to_dict Obj.vector_tolist Obj.vector_of Obj.sample "u" 1 2).
  - reflexivity.
  - intros e. discriminate.
  - reflexivity.
  - intros e [= <-]. apply vector_round_trip.
Defined.

Lemma from_dict_incomplete_witness :
  Obj.from_dict Obj.vector_of ClsShaderArtifact
    [("id", PStr "a7"); ("type", PStr "Artifact")] "u" 1 2
  = Done (Obj.__init__ ClsShaderArtifact (PStr "a7") "u" 2).
Proof.
  apply (from_dict_incomplete Obj.vector_of
           [("id", PStr "a7"); ("type", PStr "Artifact")] "u" 1 2).
  - reflexivity.
  - repeat constructor.
Defined.

Lemma artifact_id_truthy_witness :
  Obj.id (@Obj.__init__ (list Q) ClsShaderArtifact (PStr "") "u" 1) = PStr "u".
Proof.
  apply (artifact_id_truthy Obj.vector_of "u"); [discriminate|reflexivity].
Defined.
